(** * The CrateDB output plugin: SQL literal encoding and INSERT building

    A shallow embedding of [plugins/outputs/cratedb/cratedb.go]: the value
    encoder ([escapeValue], [escapeObject], [escapeString], [convertMap]) and
    the statement builder ([insertSQL]), with the parts of Go's [strings],
    [sort], [fmt] and [time] packages they call.

    Go strings are byte sequences: they are [string] here, one [ascii] per
    byte.  Integers are [Z] with the 64-bit wrap-around written out.  A Go
    map is the list of its entries in the order a [range] loop meets them,
    with distinct keys.

    The source file also holds an earlier revision of itself; the current
    revision (the one that converts the hash to [int64] and takes the
    location as an argument) is the one embedded. *)

From Stdlib Require Import ZArith String Ascii List Bool Lia.
From Stdlib Require Import Permutation Sorting.Sorted.
From Stdlib Require Import Numbers.DecimalString Numbers.DecimalZ Numbers.DecimalPos.
Import ListNotations.

#[local] Set Warnings "-register-all".

Open Scope list_scope.
Open Scope string_scope.
Open Scope Z_scope.

(* ================================================================== *)
(** * Part I: the program *)

(* ------------------------------------------------------------------ *)
(** * Characters and strings *)

(** The two quote characters of the encoder, as one-byte Go strings. *)
Definition squote : string := "'".
Definition dquote : string := String "034"%char EmptyString.
Definition newline : string := String "010"%char EmptyString.

(** [strings.Join(elems, sep)]. *)
Fixpoint Join (elems : list string) (sep : string) : string :=
  match elems with
  | [] => EmptyString
  | [a] => a
  | a :: rest => a ++ sep ++ Join rest sep
  end.

(** The first [n] bytes of [s] ([s[:n]], for [n] within the length). *)
Fixpoint take (n : nat) (s : string) : string :=
  match n, s with
  | S n', String c s' => String c (take n' s')
  | _, _ => EmptyString
  end.

(** ** [strings.Replace(s, old, new, -1)] *)

(** Width in bytes of the UTF-8 sequence at the head of a non-empty string,
    as [utf8.DecodeRuneInString] reports it: an invalid or truncated
    sequence has width 1. *)
Definition byte (c : ascii) : Z := Z.of_N (N_of_ascii c).

Definition continuation (lo hi : Z) (s : string) : bool :=
  match s with
  | String c _ => (lo <=? byte c) && (byte c <=? hi)
  | EmptyString => false
  end.

Definition tail (s : string) : string :=
  match s with
  | String _ s' => s'
  | EmptyString => EmptyString
  end.

Definition runeWidth (s : string) : nat :=
  match s with
  | EmptyString => 0%nat
  | String c0 s1 =>
      let s0 := byte c0 in
      let s2 := tail s1 in
      let s3 := tail s2 in
      let two lo hi := if continuation lo hi s1 then 2%nat else 1%nat in
      let three lo hi :=
        if continuation lo hi s1 && continuation 128 191 s2
        then 3%nat else 1%nat in
      let four lo hi :=
        if continuation lo hi s1 && continuation 128 191 s2
           && continuation 128 191 s3
        then 4%nat else 1%nat in
      if s0 <? 194 then 1%nat
      else if s0 <? 224 then two 128 191
      else if s0 =? 224 then three 160 191
      else if s0 =? 237 then three 128 159
      else if s0 <? 240 then three 128 191
      else if s0 =? 240 then four 144 191
      else if s0 <? 244 then four 128 191
      else if s0 =? 244 then four 128 143
      else 1%nat
  end.

(** An empty [old] matches before every UTF-8 sequence and at the end.
    [skip] counts the bytes of the current sequence still to be copied. *)
Fixpoint insertAtRunes (skip : nat) (s new : string) : string :=
  match s with
  | EmptyString => new
  | String c s' =>
      match skip with
      | S k => String c (insertAtRunes k s' new)
      | O => new ++ String c (insertAtRunes (runeWidth s - 1) s' new)
      end
  end.

(** A non-empty [old]: every non-overlapping occurrence, found from left to
    right, is replaced.  [skip] counts the bytes of the occurrence just
    replaced that are still to be dropped. *)
Fixpoint replaceFrom (skip : nat) (s old new : string) : string :=
  match s with
  | EmptyString => EmptyString
  | String c s' =>
      match skip with
      | S k => replaceFrom k s' old new
      | O =>
          if prefix old s
          then new ++ replaceFrom (String.length old - 1) s' old new
          else String c (replaceFrom 0 s' old new)
      end
  end.

Definition Replace (s old new : string) : string :=
  if String.eqb old new then s
  else match old with
       | EmptyString => insertAtRunes 0 s new
       | String _ _ => replaceFrom 0 s old new
       end.

(** [escapeString] wraps [s] in the given quote string and replaces all
    occurrences of it inside of [s] with a double quote. *)
Definition escapeString (s : string) (quote : string) : string :=
  quote ++ Replace s quote (quote ++ quote) ++ quote.

(* ------------------------------------------------------------------ *)
(** * Integers *)

(** The conversion [int64(u)] of a [uint64]: the same 64 bits read as a
    two's-complement number. *)
Definition int64 (u : Z) : Z := (u + 2 ^ 63) mod 2 ^ 64 - 2 ^ 63.

(** [fmt.Sprint] of an integer: its decimal digits, with a leading [-] when
    negative. *)
Definition Sprint_int (i : Z) : string := NilZero.string_of_int (Z.to_int i).

(** Reading a decimal literal back, for the statements about [Sprint_int]. *)
Definition parse_int (s : string) : option Z :=
  option_map Z.of_int (NilZero.int_of_string s).

(* ------------------------------------------------------------------ *)
(** * Time

    The part of Go's [time] package the plugin uses: [Time.In] and
    [Time.Format] with the layout ["2006-01-02T15:04:05.999-0700"]. *)

(** A [*time.Location]: the offset east of UTC, in seconds, in effect at a
    given Unix time. *)
Record Location : Type := { lookup : Z -> Z }.

Definition UTC : Location := {| lookup := fun _ => 0 |}.
Definition FixedZone (offset : Z) : Location := {| lookup := fun _ => offset |}.

(** A [time.Time]: an instant (seconds since the Unix epoch and nanoseconds
    within the second, from 0 to 999999999) and the location it is shown in. *)
Record Time : Type := { unixSec : Z; nsec : Z; loc : Location }.

(** [t.In(loc)]: the same instant, shown in [loc]. *)
Definition In_ (t : Time) (l : Location) : Time :=
  {| unixSec := unixSec t; nsec := nsec t; loc := l |}.

(** The calendar date of a day number counted from 1970-01-01, in the
    proleptic Gregorian calendar. *)
Definition civil (days : Z) : Z * Z * Z :=
  let z := days + 719468 in
  let era := z / 146097 in
  let doe := z - era * 146097 in
  let yoe := (doe - doe / 1460 + doe / 36524 - doe / 146096) / 365 in
  let doy := doe - (365 * yoe + yoe / 4 - yoe / 100) in
  let mp := (5 * doy + 2) / 153 in
  let d := doy - (153 * mp + 2) / 5 + 1 in
  let m := if mp <? 10 then mp + 3 else mp - 9 in
  let y := yoe + era * 400 + (if m <=? 2 then 1 else 0) in
  (y, m, d).

(** The wall clock of [t] in its location. *)
Definition offset (t : Time) : Z := lookup (loc t) (unixSec t).
Definition wall (t : Time) : Z := unixSec t + offset t.
Definition Year (t : Time) : Z := fst (fst (civil (wall t / 86400))).
Definition Month (t : Time) : Z := snd (fst (civil (wall t / 86400))).
Definition Day (t : Time) : Z := snd (civil (wall t / 86400)).
Definition Hour (t : Time) : Z := wall t mod 86400 / 3600.
Definition Minute (t : Time) : Z := wall t mod 3600 / 60.
Definition Second (t : Time) : Z := wall t mod 60.
Definition Nanosecond (t : Time) : Z := nsec t.

(** The character of a decimal digit: [byte('0' + d)]. *)
Definition digit (d : Z) : ascii := ascii_of_N (Z.to_N (48 + d)).

(** [n] copies of the digit 0. *)
Fixpoint zeros (n : nat) : string :=
  match n with
  | O => EmptyString
  | S n' => String "0" (zeros n')
  end.

(** The decimal digits of [u], most significant first: the loop
    [for u >= 10] of [appendInt], over a buffer of [fuel] bytes. *)
Fixpoint utoa (fuel : nat) (u : Z) : string :=
  match fuel with
  | O => EmptyString
  | S fuel' =>
      if u <? 10 then String (digit u) EmptyString
      else utoa fuel' (u / 10) ++ String (digit (u mod 10)) EmptyString
  end.

(** [appendInt(b, x, width)]: the decimal form of [x], zero-padded on the
    left to [width] digits, after a [-] when [x] is negative.  The buffer
    has 20 bytes, enough for a 64-bit [x]. *)
Definition appendInt (x : Z) (width : nat) : string :=
  let digits := utoa 20 (Z.abs x) in
  (if x <? 0 then "-" else EmptyString)
  ++ zeros (width - String.length digits) ++ digits.

(** The last [w] decimal digits of [u], most significant first: the loop
    of [formatNano] that fills a buffer of [w] bytes from its end. *)
Fixpoint fixed (w : nat) (u : Z) : string :=
  match w with
  | O => EmptyString
  | S w' => fixed w' (u / 10) ++ String (digit (u mod 10)) EmptyString
  end.

(** Dropping trailing zeros ([formatNano] with [trim]). *)
Fixpoint trimZeros (s : string) : string :=
  match s with
  | EmptyString => EmptyString
  | String c s' =>
      match trimZeros s' with
      | EmptyString => if Ascii.eqb c "0" then EmptyString
                       else String c EmptyString
      | rest => String c rest
      end
  end.

(** [formatNano(b, nanosec, n, true)]: the first [n] of the nine digits of
    the nanoseconds, without trailing zeros, after a dot; nothing at all
    when no digit is left. *)
Definition formatNano (nanosec : Z) (n : nat) : string :=
  match trimZeros (take n (fixed 9 nanosec)) with
  | EmptyString => EmptyString
  | digits => "." ++ digits
  end.

(** The pieces [Format] cuts a layout into. *)
Inductive chunk : Type :=
| Lit (s : string)
| stdLongYear                   (* 2006 *)
| stdZeroMonth                  (* 01 *)
| stdZeroDay                    (* 02 *)
| stdHour                       (* 15 *)
| stdZeroMinute                 (* 04 *)
| stdZeroSecond                 (* 05 *)
| stdFracSecond9 (n : nat)      (* .999 *)
| stdNumericTZ.                 (* -0700 *)

Definition formatChunk (t : Time) (c : chunk) : string :=
  match c with
  | Lit s => s
  | stdLongYear => appendInt (Year t) 4
  | stdZeroMonth => appendInt (Month t) 2
  | stdZeroDay => appendInt (Day t) 2
  | stdHour => appendInt (Hour t) 2
  | stdZeroMinute => appendInt (Minute t) 2
  | stdZeroSecond => appendInt (Second t) 2
  | stdFracSecond9 n => formatNano (Nanosecond t) n
  | stdNumericTZ =>
      let zone := Z.quot (offset t) 60 in
      (if zone <? 0 then "-" else "+")
      ++ appendInt (Z.quot (Z.abs zone) 60) 2
      ++ appendInt (Z.rem (Z.abs zone) 60) 2
  end.

Definition Format (t : Time) (layout : list chunk) : string :=
  String.concat EmptyString (map (formatChunk t) layout).

(** The layout ["2006-01-02T15:04:05.999-0700"] of [escapeValue]. *)
Definition crateLayout : list chunk :=
  [stdLongYear; Lit "-"; stdZeroMonth; Lit "-"; stdZeroDay; Lit "T";
   stdHour; Lit ":"; stdZeroMinute; Lit ":"; stdZeroSecond;
   stdFracSecond9 3; stdNumericTZ].

(* ------------------------------------------------------------------ *)
(** * Values and results *)

(** A floating-point number.  The encoder never computes with one, it only
    prints it with [fmt.Sprint]; a float is carried here with that rendering
    (the shortest decimal text that reads back as the same number), which
    this development does not compute. *)
Record Float : Type := { Sprint_float : string }.

(** A Go map, as the list of its entries in the order a [range] loop meets
    them.  The keys of a map are distinct ([wf_map] below). *)
Definition gomap (A : Type) : Type := list (string * A).

(** The dynamic values ([interface{}]) the encoder can be handed, by dynamic
    type.  [VNil] is the nil interface, which indexing a map with a missing
    key yields; [VOther T] is a value of any dynamic type not listed, [T]
    being the name [%T] prints for it. *)
Inductive value : Type :=
| VNil
| VString (t : string)
| VInt (t : Z)
| VInt32 (t : Z)
| VInt64 (t : Z)
| VFloat32 (t : Float)
| VFloat64 (t : Float)
| VUint (t : Z)
| VUint32 (t : Z)
| VUint64 (t : Z)
| VBool (t : bool)
| VTime (t : Time)
| VMapSS (t : gomap string)
| VMapSI (t : gomap value)
| VOther (T : string).

(** What [%T] prints for a value. *)
Definition typeName (val : value) : string :=
  match val with
  | VNil => "<nil>"
  | VString _ => "string"
  | VInt _ => "int"
  | VInt32 _ => "int32"
  | VInt64 _ => "int64"
  | VFloat32 _ => "float32"
  | VFloat64 _ => "float64"
  | VUint _ => "uint"
  | VUint32 _ => "uint32"
  | VUint64 _ => "uint64"
  | VBool _ => "bool"
  | VTime _ => "time.Time"
  | VMapSS _ => "map[string]string"
  | VMapSI _ => "map[string]interface {}"
  | VOther T => T
  end.

(** The error of [escapeValue]:
    [fmt.Errorf("unexpected type: %T: %#v", t, t)], kept with the value [t]
    it was made from. *)
Inductive error : Type :=
| UnexpectedType (t : value).

(** The type tag in the message of an error. *)
Definition errorType (e : error) : string :=
  match e with UnexpectedType t => typeName t end.

(** The result of a call that returns [(x, error)]: [Ok x] is [(x, nil)] and
    [Err e] is [("", e)].  [OutOfFuel] is no result of the program: it is
    what the recursion of [escapeValueN] returns when its bound on the
    nesting depth is too small; [escapeValue] never returns it
    ([escapeValue_returns]). *)
Inductive result (A : Type) : Type :=
| Ok (x : A)
| Err (e : error)
| OutOfFuel.

Arguments Ok {A} x.
Arguments Err {A} e.
Arguments OutOfFuel {A}.

Definition bind {A B : Type} (r : result A) (k : A -> result B) : result B :=
  match r with
  | Ok x => k x
  | Err e => Err e
  | OutOfFuel => OutOfFuel
  end.

Notation "x <- r ;; k" := (bind r (fun x => k))
  (at level 61, r at next level, right associativity).

(** The text a call hands back: the empty string beside an error. *)
Definition text (r : result string) : string :=
  match r with
  | Ok s => s
  | _ => EmptyString
  end.

(** A loop that fills a slice with [f] of each element and returns at the
    first error. *)
Fixpoint forEach {A B : Type} (f : A -> result B) (l : list A)
  : result (list B) :=
  match l with
  | [] => Ok []
  | a :: rest =>
      b <- f a ;;
      bs <- forEach f rest ;;
      Ok (b :: bs)
  end.

(* ------------------------------------------------------------------ *)
(** * Maps and sorting *)

(** The keys of a map, in the order the [range] loop yields them. *)
Definition keys {A : Type} (m : gomap A) : list string := map fst m.

(** Keys are distinct. *)
Definition wf_map {A : Type} (m : gomap A) : Prop := NoDup (keys m).

(** [m[k]] with the comma-ok form. *)
Fixpoint get {A : Type} (m : gomap A) (k : string) : option A :=
  match m with
  | [] => None
  | (k', v) :: m' => if String.eqb k k' then Some v else get m' k
  end.

(** [m[k]] on a [map[string]interface{}]: nil when the key is missing. *)
Definition index (m : gomap value) (k : string) : value :=
  match get m k with
  | Some v => v
  | None => VNil
  end.

(** [sort.Strings]: ascending order of the byte-wise comparison of Go's
    [<] on strings, here by insertion.  (An ascending list is determined by
    its elements, [ascending_unique]: any sorting algorithm returns the same
    list.) *)
Fixpoint insert (k : string) (l : list string) : list string :=
  match l with
  | [] => [k]
  | k' :: l' => if String.leb k k' then k :: l else k' :: insert k l'
  end.

Fixpoint sortStrings (l : list string) : list string :=
  match l with
  | [] => []
  | k :: l' => insert k (sortStrings l')
  end.

(* ------------------------------------------------------------------ *)
(** * The encoder *)

(** [convertMap] converts [m] from [map[string]string] to
    [map[string]interface{}] by copying it.  (The copy is given the order of
    iteration of [m]; the encoder sorts the keys, so its order does not
    matter: [escapeObject_Permutation].) *)
Definition convertMap (m : gomap string) : gomap value :=
  map (fun kv => (fst kv, VString (snd kv))) m.

(** The body of [escapeObject], over the encoder [escapeValue] it calls for
    the values: the keys are collected and sorted, then the [key = val]
    pairs are built in that order, stopping at the first error. *)
Definition escapeObjectWith (escapeValue : value -> result string)
    (m : gomap value) : result string :=
  let keys := sortStrings (keys m) in
  pairs <- forEach (fun k =>
             val <- escapeValue (index m k) ;;
             Ok (escapeString k dquote ++ " = " ++ val)) keys ;;
  Ok ("{" ++ Join pairs ", " ++ "}").

(** [escapeValue], with a bound [n] on the depth of the recursion.  The
    last case is the [default] of the type switch. *)
Fixpoint escapeValueN (n : nat) (val : value) : result string :=
  match n with
  | O => OutOfFuel
  | S n' =>
      match val with
      | VString t => Ok (escapeString t squote)
      | VInt t | VInt32 t | VInt64 t => Ok (Sprint_int t)
      | VFloat32 t | VFloat64 t => Ok (Sprint_float t)
      | VTime t => escapeValueN n' (VString (Format t crateLayout))
      | VMapSS t => escapeObjectWith (escapeValueN n') (convertMap t)
      | VMapSI t => escapeObjectWith (escapeValueN n') t
      | _ => Err (UnexpectedType val)
      end
  end.

(** The nesting depth of a value: the number of recursive calls its
    encoding makes. *)
Fixpoint depth (val : value) : nat :=
  match val with
  | VTime _ => 1
  | VMapSS _ => 1
  | VMapSI t =>
      S ((fix depths (m : gomap value) : nat :=
            match m with
            | [] => 0
            | (_, v) :: m' => Nat.max (depth v) (depths m')
            end) t)
  | _ => 0
  end%nat.

(** [escapeValue] returns a string version of [val] that is suitable for
    being used inside of a VALUES expression or similar.  Unsupported types
    return an error. *)
Definition escapeValue (val : value) : result string :=
  escapeValueN (S (depth val)) val.

Definition escapeObject (m : gomap value) : result string :=
  escapeObjectWith escapeValue m.

(* ------------------------------------------------------------------ *)
(** * The statement builder *)

(** A [telegraf.Metric], by the five accessors [insertSQL] calls.  [HashID]
    is a [uint64]: from 0 to 2^64 - 1. *)
Record Metric : Type := {
  HashID : Z;
  Time_ : Time;
  Name : string;
  Tags : gomap string;
  Fields : gomap value
}.

(** The five columns of a row, [cols] in [insertSQL]. *)
Definition columns (m : Metric) (loc : Location) : list value :=
  [ VInt64 (int64 (HashID m));
    VTime (In_ (Time_ m) loc);
    VString (Name m);
    VMapSS (Tags m);
    VMapSI (Fields m) ].

(** One turn of the outer loop of [insertSQL]: the text of a row. *)
Definition insertRow (loc : Location) (m : Metric) : result string :=
  escapedCols <- forEach escapeValue (columns m loc) ;;
  Ok ("(" ++ Join escapedCols ", " ++ ")").

(** The column list of the statement. *)
Definition columnNames : string :=
  " (" ++ dquote ++ "hash_id" ++ dquote ++ ", "
       ++ dquote ++ "timestamp" ++ dquote ++ ", "
       ++ dquote ++ "name" ++ dquote ++ ", "
       ++ dquote ++ "tags" ++ dquote ++ ", "
       ++ dquote ++ "fields" ++ dquote ++ ")".

(** [insertSQL]: the rows of the records, in order, or the first error;
    then the statement around them. *)
Definition insertSQL (table : string) (metrics : list Metric)
    (loc : Location) : result string :=
  rows <- forEach (insertRow loc) metrics ;;
  Ok ("INSERT INTO " ++ table ++ columnNames ++ newline
      ++ "VALUES" ++ newline
      ++ Join rows (" ," ++ newline) ++ ";").

(* ------------------------------------------------------------------ *)
(** * The plugin and its database *)

(** An error of [database/sql] or of the driver. *)
Inductive dberror : Type :=
| DBError (msg : string).

(** A [*sql.DB].  The database is outside the program: a handle is what
    [ExecContext] returns (nil or an error) for a statement run with a
    timeout, given the statements the plugin sent before it. *)
Record SQLDB : Type := {
  ExecContext : list string -> Z -> string -> option dberror
}.

(** The plugin.  [Timeout] is a duration in nanoseconds; [DB] is nil until
    [Connect] sets it. *)
Record CrateDB : Type := {
  URL : string;
  Timeout : Z;
  Table : string;
  TableCreate : bool;
  DB : option SQLDB
}.

(** The plugin the factory registered by [init] makes: a timeout of five
    seconds, every other field zero. *)
Definition newCrateDB : CrateDB :=
  {| URL := EmptyString; Timeout := 1000000000 * 5; Table := EmptyString;
     TableCreate := false; DB := None |}.

(** An [error] returned by a method of the plugin: one of the encoder or
    one of the database. *)
Inductive goerror : Type :=
| EncodingError (e : error)
| DatabaseError (e : dberror).

(** How a call of a method ends: it returns an error or nil, or it panics
    on the nil [DB].  [NoReturn] stands for [OutOfFuel] of [insertSQL],
    which never happens ([insertSQL_returns]). *)
Inductive returned : Type :=
| Return (err : option goerror)
| Panic
| NoReturn.

Definition tab : string := String "009"%char EmptyString.

(** The statement of [Connect] that creates the table. *)
Definition createSQL (table : string) : string :=
  newline
  ++ "CREATE TABLE IF NOT EXISTS " ++ table ++ " (" ++ newline
  ++ tab ++ dquote ++ "hash_id" ++ dquote ++ " LONG INDEX OFF," ++ newline
  ++ tab ++ dquote ++ "timestamp" ++ dquote ++ " TIMESTAMP," ++ newline
  ++ tab ++ dquote ++ "name" ++ dquote ++ " STRING," ++ newline
  ++ tab ++ dquote ++ "tags" ++ dquote ++ " OBJECT(DYNAMIC)," ++ newline
  ++ tab ++ dquote ++ "fields" ++ dquote ++ " OBJECT(DYNAMIC)," ++ newline
  ++ "  " ++ dquote ++ "day" ++ dquote
  ++ " TIMESTAMP GENERATED ALWAYS AS date_trunc('day', "
  ++ dquote ++ "timestamp" ++ dquote ++ ")," ++ newline
  ++ tab ++ "PRIMARY KEY (" ++ dquote ++ "timestamp" ++ dquote ++ ", "
  ++ dquote ++ "hash_id" ++ dquote ++ "," ++ dquote ++ "day" ++ dquote ++ ")"
  ++ newline
  ++ ")PARTITIONED BY(" ++ dquote ++ "day" ++ dquote ++ ");" ++ newline.

(** [Connect].  [sqlOpen] is [sql.Open]; [sent] is the list of the
    statements handed to the database so far, oldest first.  The result is
    the plugin after the call, how the call ended, and the statements sent. *)
Definition Connect (sqlOpen : string -> string -> SQLDB + dberror)
    (c : CrateDB) (sent : list string) : CrateDB * returned * list string :=
  match sqlOpen "postgres" (URL c) with
  | inr err => (c, Return (Some (DatabaseError err)), sent)
  | inl db =>
      let connected :=
        {| URL := URL c; Timeout := Timeout c; Table := Table c;
           TableCreate := TableCreate c; DB := Some db |} in
      if TableCreate c then
        let sql := createSQL (Table c) in
        match ExecContext db sent (Timeout c) sql with
        | Some err =>
            (c, Return (Some (DatabaseError err)), (sent ++ [sql])%list)
        | None => (connected, Return None, (sent ++ [sql])%list)
        end
      else (connected, Return None, sent)
  end.

(** [Write].  [Local] is [time.Local].  The statement is built first; the
    database is touched only when that succeeds. *)
Definition Write (Local : Location) (c : CrateDB) (sent : list string)
    (metrics : list Metric) : returned * list string :=
  match insertSQL (Table c) metrics Local with
  | Err err => (Return (Some (EncodingError err)), sent)
  | OutOfFuel => (NoReturn, sent)
  | Ok sql =>
      match DB c with
      | None => (Panic, sent)
      | Some db =>
          match ExecContext db sent (Timeout c) sql with
          | Some err =>
              (Return (Some (DatabaseError err)), (sent ++ [sql])%list)
          | None => (Return None, (sent ++ [sql])%list)
          end
      end
  end.

(* ------------------------------------------------------------------ *)
(** * The earlier revision of the encoder and the builder

    The source file holds, after the current revision, the one before it.
    Its type switch has a case for the unsigned integers too, and its
    [insertSQL] takes no location: the hash is encoded as the [uint64] it
    is and the time in the location it carries.  [escapeObject],
    [convertMap] and [escapeString] are the same. *)

Module Earlier.

Fixpoint escapeValueN (n : nat) (val : value) : result string :=
  match n with
  | O => OutOfFuel
  | S n' =>
      match val with
      | VString t => Ok (escapeString t squote)
      | VInt t | VUint t | VInt32 t | VUint32 t | VInt64 t | VUint64 t =>
          Ok (Sprint_int t)
      | VFloat32 t | VFloat64 t => Ok (Sprint_float t)
      | VTime t => escapeValueN n' (VString (Format t crateLayout))
      | VMapSS t => escapeObjectWith (escapeValueN n') (convertMap t)
      | VMapSI t => escapeObjectWith (escapeValueN n') t
      | _ => Err (UnexpectedType val)
      end
  end.

Definition escapeValue (val : value) : result string :=
  escapeValueN (S (depth val)) val.

Definition columns (m : Metric) : list value :=
  [ VUint64 (HashID m);
    VTime (Time_ m);
    VString (Name m);
    VMapSS (Tags m);
    VMapSI (Fields m) ].

Definition insertRow (m : Metric) : result string :=
  escapedCols <- forEach escapeValue (columns m) ;;
  Ok ("(" ++ Join escapedCols ", " ++ ")").

Definition insertSQL (table : string) (metrics : list Metric)
  : result string :=
  rows <- forEach insertRow metrics ;;
  Ok ("INSERT INTO " ++ table ++ columnNames ++ newline
      ++ "VALUES" ++ newline
      ++ Join rows (" ," ++ newline) ++ ";").

End Earlier.

(* ================================================================== *)
(** * Part II: the vocabulary of the statements *)

(* ------------------------------------------------------------------ *)
(** * Order, depth, supported types *)

(** Ascending order of strings, as [sort.Strings] leaves them. *)
Definition ascending : list string -> Prop :=
  StronglySorted (fun a b => String.leb a b = true).

(** The largest depth of a value of a map. *)
Fixpoint maxDepth (m : gomap value) : nat :=
  match m with
  | [] => 0%nat
  | (_, v) :: m' => Nat.max (depth v) (maxDepth m')
  end.

(** The values the type switch of [escapeValue] has a case for. *)
Definition supported (val : value) : bool :=
  match val with
  | VString _ | VInt _ | VInt32 _ | VInt64 _ | VFloat32 _ | VFloat64 _
  | VTime _ | VMapSS _ | VMapSI _ => true
  | _ => false
  end.

(* ------------------------------------------------------------------ *)
(** * The text of rows and statements *)

(** The text of a [map[string]string]: encoding one never fails. *)
Definition tagsText (t : gomap string) : string :=
  "{" ++ Join (map (fun k =>
                 escapeString k dquote ++ " = "
                 ++ escapeString (match get t k with
                                  | Some s => s
                                  | None => EmptyString
                                  end) squote)
               (sortStrings (keys t))) ", " ++ "}".

(** The text of a row whose fields encode to [fields]. *)
Definition rowText (loc : Location) (m : Metric) (fields : string) : string :=
  "(" ++ Sprint_int (int64 (HashID m)) ++ ", "
      ++ escapeString (Format (In_ (Time_ m) loc) crateLayout) squote ++ ", "
      ++ escapeString (Name m) squote ++ ", "
      ++ tagsText (Tags m) ++ ", "
      ++ fields ++ ")".

(** The text of the statement around its rows. *)
Definition statement (table : string) (rows : list string) : string :=
  "INSERT INTO " ++ table ++ columnNames ++ newline
  ++ "VALUES" ++ newline
  ++ Join rows (" ," ++ newline) ++ ";".

(** The text of the row of a record, when its fields encode. *)
Definition rowOf (loc : Location) (m : Metric) : string :=
  rowText loc m (text (escapeObject (Fields m))).

(* ------------------------------------------------------------------ *)
(** * Escaping with a one-character quote *)

(** [s] with every occurrence of the character [q] written twice, and
    every other character kept. *)
Fixpoint doubled (q : ascii) (s : string) : string :=
  match s with
  | EmptyString => EmptyString
  | String c s' =>
      if Ascii.eqb c q then String q (String q (doubled q s'))
      else String c (doubled q s')
  end.

(** Reading a quoted literal back: the outer quotes are stripped and each
    doubled quote is collapsed to one. *)
Fixpoint removeLast (s : string) : string :=
  match s with
  | EmptyString => EmptyString
  | String c s' =>
      match s' with
      | EmptyString => EmptyString
      | String _ _ => String c (removeLast s')
      end
  end.

Fixpoint collapse (q : ascii) (s : string) : string :=
  match s with
  | EmptyString => EmptyString
  | String c s' =>
      match s' with
      | EmptyString => String c EmptyString
      | String c' s'' =>
          if Ascii.eqb c q && Ascii.eqb c' q
          then String q (collapse q s'')
          else String c (collapse q s')
      end
  end.

Definition unquote (q : ascii) (s : string) : string :=
  collapse q (removeLast (tail s)).

(* ------------------------------------------------------------------ *)
(** * Maps with the same content *)

(** The values of a well-formed value: maps with distinct keys at every
    level of nesting. *)
Fixpoint wf_value (val : value) : Prop :=
  match val with
  | VMapSS t => wf_map t
  | VMapSI t =>
      wf_map t /\
      (fix all (m : gomap value) : Prop :=
         match m with
         | [] => True
         | (_, v) :: m' => wf_value v /\ all m'
         end) t
  | _ => True
  end.


(* ------------------------------------------------------------------ *)
(** * The literal of a value, as the specification words it *)

(** A quoted text: the quote, the text with each quote doubled, the quote. *)
Definition quoted (q : ascii) (s : string) : string :=
  String q (doubled q s ++ String q EmptyString).

(** An object literal from the literals of its values: the [key = value]
    pairs in ascending order of the keys, separated by a comma and a space,
    within braces. *)
Definition renderObject (entries : gomap string) : string :=
  "{" ++ Join (map (fun k =>
                 quoted "034" k ++ " = "
                 ++ match get entries k with
                    | Some s => s
                    | None => EmptyString
                    end)
               (sortStrings (keys entries))) ", " ++ "}".

Fixpoint render (val : value) : string :=
  match val with
  | VString t => quoted "'" t
  | VInt t | VInt32 t | VInt64 t => Sprint_int t
  | VFloat32 t | VFloat64 t => Sprint_float t
  | VTime t => quoted "'" (Format t crateLayout)
  | VMapSS t => renderObject (map (fun kv => (fst kv, quoted "'" (snd kv))) t)
  | VMapSI t =>
      renderObject
        ((fix each (m : gomap value) : gomap string :=
            match m with
            | [] => []
            | (k, v) :: m' => (k, render v) :: each m'
            end) t)
  | _ => EmptyString
  end.

(** The encodable values: those of a supported type whose map values are
    encodable, at every level of nesting. *)
Fixpoint encodable (val : value) : bool :=
  match val with
  | VMapSI t =>
      (fix all (m : gomap value) : bool :=
         match m with
         | [] => true
         | (_, v) :: m' => encodable v && all m'
         end) t
  | _ => supported val
  end.

Fixpoint renderEntries (m : gomap value) : gomap string :=
  match m with
  | [] => []
  | (k, v) :: m' => (k, render v) :: renderEntries m'
  end.

(* ------------------------------------------------------------------ *)
(** * Where an error comes from *)

(** [inside t val]: [t] is [val], or a value found under [val] by
    indexing maps. *)
Inductive inside (t : value) : value -> Prop :=
| inside_here : inside t t
| inside_entry k v m : In (k, v) m -> inside t v -> inside t (VMapSI m).

(* ------------------------------------------------------------------ *)
(** * Tuples and the statement, as the specification words them *)

(** The tuple of a record: its five columns, encoded, separated by a comma
    and a space, within parentheses. *)
Definition tupleOf (loc : Location) (m : Metric) : string :=
  "(" ++ Join (map (fun c => text (escapeValue c)) (columns m loc)) ", "
      ++ ")".

(** The statement as the specification words it: the column list, VALUES,
    and the tuples separated by a comma and a newline. *)
Definition spec_statement (table : string) (rows : list string) : string :=
  "INSERT INTO " ++ table ++ columnNames ++ " VALUES "
  ++ Join rows ("," ++ newline) ++ ";".

(* ------------------------------------------------------------------ *)
(** * The text of a timestamp *)

(** No character of [s] is a single quote. *)
Fixpoint noQuote (s : string) : bool :=
  match s with
  | EmptyString => true
  | String c s' => negb (Ascii.eqb c "'") && noQuote s'
  end.

(** The fraction of a second: nothing for a whole number of milliseconds
    that is zero, else a dot and the three digits of the milliseconds
    without trailing zeros. *)
Definition fraction (ms : Z) : string :=
  match trimZeros (fixed 3 ms) with
  | EmptyString => EmptyString
  | digits => "." ++ digits
  end.


(* ------------------------------------------------------------------ *)
(** * Sample records *)

(** The Unix epoch, in UTC. *)
Definition epoch : Time := {| unixSec := 0; nsec := 0; loc := UTC |}.

(** The record of the specification's scenario. *)
Definition cpu : Metric :=
  {| HashID := 14305102049502225714;
     Time_ := {| unixSec := 1672628645; nsec := 678000000; loc := UTC |};
     Name := "cpu";
     Tags := [("host", "a's-box")];
     Fields := [("usage", VFloat64 {| Sprint_float := "42.5" |})] |}.

Definition bare (h : Z) (name : string) : Metric :=
  {| HashID := h; Time_ := epoch; Name := name; Tags := []; Fields := [] |}.

(** A batch whose second record has a field of type [uint64]. *)
Definition bad_batch : list Metric :=
  [ bare 1 "cpu";
    {| HashID := 2; Time_ := epoch; Name := "mem"; Tags := [];
       Fields := [("free", VInt64 7); ("used", VUint64 9)] |};
    bare 3 "disk" ].

(** The same fields, met in two orders, at both levels. *)
Definition fields_a : gomap value :=
  [ ("usage", VInt64 42);
    ("disk", VMapSI [("used", VInt64 1); ("free", VString "none")]);
    ("host", VString "a") ].


(* ------------------------------------------------------------------ *)
(** * Counting quotes, reading a date back, sample databases *)

(** The number of occurrences of the character [q] in [s]. *)
Fixpoint count (q : ascii) (s : string) : nat :=
  match s with
  | EmptyString => 0%nat
  | String c s' => ((if Ascii.eqb c q then 1 else 0) + count q s')%nat
  end.

(** The day number, counted from 1970-01-01, of a calendar date. *)
Definition daysFromCivil (y m d : Z) : Z :=
  let y' := if m <=? 2 then y - 1 else y in
  let era := y' / 400 in
  let yoe := y' - era * 400 in
  let doy := (153 * (if 2 <? m then m - 3 else m + 9) + 2) / 5 + d - 1 in
  let doe := yoe * 365 + yoe / 4 - yoe / 100 + doy in
  era * 146097 + doe - 719468.

(** The fields of every record of a batch have distinct keys, at every
    level. *)
Definition wf_batch (metrics : list Metric) : Prop :=
  Forall (fun m => wf_value (VMapSI (Fields m))) metrics.

(** The fields of every record of a batch are encodable. *)
Definition encodable_batch (metrics : list Metric) : bool :=
  forallb (fun m => encodable (VMapSI (Fields m))) metrics.

(** A database that accepts every statement, and one that refuses every
    statement. *)
Definition acceptAll : SQLDB := {| ExecContext := fun _ _ _ => None |}.
Definition refuseAll : SQLDB :=
  {| ExecContext := fun _ _ _ => Some (DBError "refused") |}.

(** A plugin configured for the table [metrics], not yet connected. *)
Definition configured : CrateDB :=
  {| URL := "postgres://localhost/doc"; Timeout := 1000000000 * 5;
     Table := "metrics"; TableCreate := true; DB := None |}.

(** [sql.Open] that always succeeds with the given handle, and one that
    always fails. *)
Definition openWith (db : SQLDB) : string -> string -> SQLDB + dberror :=
  fun _ _ => inl db.
Definition openFails : string -> string -> SQLDB + dberror :=
  fun _ _ => inr (DBError "unknown driver").

(** A connected plugin whose database accepts every statement. *)
Definition connected : CrateDB :=
  {| URL := URL configured; Timeout := Timeout configured;
     Table := Table configured; TableCreate := TableCreate configured;
     DB := Some acceptAll |}.

(** No unsigned integer in a value, at any level. *)
Fixpoint unsignedFree (val : value) : bool :=
  match val with
  | VUint _ | VUint32 _ | VUint64 _ => false
  | VMapSI t =>
      (fix all (m : gomap value) : bool :=
         match m with
         | [] => true
         | (_, v) :: m' => unsignedFree v && all m'
         end) t
  | _ => true
  end.

(** Reading a quoted literal at the head of a text, as a lexer of SQL does:
    after the opening quote, a doubled quote stands for one quote and a
    single one ends the literal.  The result is the text read and what
    follows the literal. *)
Fixpoint scanBody (q : ascii) (s : string) : option (string * string) :=
  match s with
  | EmptyString => None
  | String c s' =>
      if Ascii.eqb c q then
        match s' with
        | EmptyString => Some (EmptyString, EmptyString)
        | String c' s'' =>
            if Ascii.eqb c' q
            then option_map (fun r => (String q (fst r), snd r))
                   (scanBody q s'')
            else Some (EmptyString, s')
        end
      else option_map (fun r => (String c (fst r), snd r)) (scanBody q s')
  end.

Definition scanLiteral (q : ascii) (s : string) : option (string * string) :=
  match s with
  | EmptyString => None
  | String c s' => if Ascii.eqb c q then scanBody q s' else None
  end.

(** The text [s] does not begin with the character [q]. *)
Definition notAt (q : ascii) (s : string) : bool :=
  match s with
  | EmptyString => true
  | String c _ => negb (Ascii.eqb c q)
  end.

(* ================================================================== *)
(** * Part III: lemmas *)

(* ------------------------------------------------------------------ *)
(** * Facts about strings *)

Lemma append_assoc (s1 s2 s3 : string) : (s1 ++ s2) ++ s3 = s1 ++ s2 ++ s3.
Proof. induction s1; simpl; congruence. Qed.

Lemma append_nil_r (s : string) : s ++ EmptyString = s.
Proof. induction s; simpl; congruence. Qed.

Lemma length_append (s1 s2 : string) :
  String.length (s1 ++ s2) = (String.length s1 + String.length s2)%nat.
Proof. induction s1; simpl; congruence. Qed.

(* ------------------------------------------------------------------ *)
(** * Loops with early return *)

Section ForEach.
Context {A B : Type}.
Implicit Types (f g : A -> result B) (l : list A).

Lemma forEach_ext f g l :
  (forall a, In a l -> f a = g a) -> forEach f l = forEach g l.
Proof.
  induction l as [|a l IH]; simpl; intros H; [reflexivity|].
  rewrite (H a) by auto. rewrite IH by auto. reflexivity.
Qed.

(** A loop that ends well has one result per element, in order. *)
Lemma forEach_Ok f l bs :
  forEach f l = Ok bs -> Forall2 (fun a b => f a = Ok b) l bs.
Proof.
  revert bs. induction l as [|a l IH]; simpl; intros bs H.
  - injection H as <-. constructor.
  - destruct (f a) as [b| |] eqn:Ea; simpl in H; try discriminate.
    destruct (forEach f l) as [bs'| |]; simpl in H; try discriminate.
    injection H as <-. constructor; auto.
Qed.

Lemma forEach_all_Ok f l (h : A -> B) :
  (forall a, In a l -> f a = Ok (h a)) -> forEach f l = Ok (map h l).
Proof.
  induction l as [|a l IH]; simpl; intros H; [reflexivity|].
  rewrite (H a) by auto. simpl. rewrite IH by auto. reflexivity.
Qed.

(** A loop fails with the error of the first element that fails. *)
Lemma forEach_Err f l1 a l2 e :
  (forall x, In x l1 -> exists b, f x = Ok b) ->
  f a = Err e ->
  forEach f (l1 ++ a :: l2)%list = Err e.
Proof.
  induction l1 as [|x l1 IH]; simpl; intros H Ha.
  - rewrite Ha. reflexivity.
  - destruct (H x) as [b Hb]; auto. rewrite Hb. simpl.
    rewrite IH by auto. reflexivity.
Qed.

(** When no call runs out of fuel, the loop ends well or some element
    fails, all before it having succeeded. *)
Lemma forEach_cases f l :
  (forall a, In a l -> f a <> OutOfFuel) ->
  (exists bs, forEach f l = Ok bs) \/
  (exists l1 a l2 e, l = (l1 ++ a :: l2)%list /\ f a = Err e /\
     (forall x, In x l1 -> exists b, f x = Ok b) /\
     forEach f l = Err e).
Proof.
  induction l as [|a l IH]; simpl; intros H.
  - left. eauto.
  - destruct (f a) as [b|e|] eqn:Ea.
    + destruct IH as [[bs Hbs]|(l1 & x & l2 & e & -> & Hx & Hl1 & He)];
        [auto| |].
      * left. rewrite Hbs. simpl. eauto.
      * right. exists (a :: l1), x, l2, e. simpl.
        rewrite He. repeat split; auto.
        intros y [<-|Hy]; eauto.
    + right. exists [], a, l, e. simpl. repeat split; auto.
      intros x [].
    + exfalso. apply (H a); auto.
Qed.
End ForEach.

(* ------------------------------------------------------------------ *)
(** * [sort.Strings] sorts *)

Lemma ascii_compare_trans a b c o :
  Ascii.compare a b = o -> Ascii.compare b c = o -> Ascii.compare a c = o.
Proof.
  unfold Ascii.compare. intros H1 H2.
  destruct o.
  - apply N.compare_eq_iff in H1, H2. apply N.compare_eq_iff. congruence.
  - rewrite N.compare_lt_iff in *. lia.
  - rewrite N.compare_gt_iff in *. lia.
Qed.

Lemma leb_trans s1 s2 s3 :
  String.leb s1 s2 = true -> String.leb s2 s3 = true -> String.leb s1 s3 = true.
Proof.
  unfold String.leb. revert s2 s3.
  induction s1 as [|a s1 IH]; intros [|b s2] [|c s3]; simpl; auto;
    try discriminate.
  destruct (Ascii.compare a b) eqn:Hab; try discriminate;
    destruct (Ascii.compare b c) eqn:Hbc; try discriminate; intros H1 H2.
  - rewrite (ascii_compare_trans _ _ _ _ Hab Hbc). eauto.
  - apply Ascii.compare_eq_iff in Hab. subst. rewrite Hbc. reflexivity.
  - apply Ascii.compare_eq_iff in Hbc. subst. rewrite Hab. reflexivity.
  - rewrite (ascii_compare_trans _ _ _ _ Hab Hbc). reflexivity.
Qed.

Lemma insert_perm k l : Permutation (k :: l) (insert k l).
Proof.
  induction l as [|k' l IH]; simpl; [reflexivity|].
  destruct (String.leb k k'); [reflexivity|].
  rewrite perm_swap. now constructor.
Qed.

Lemma sortStrings_perm l : Permutation l (sortStrings l).
Proof.
  induction l as [|k l IH]; simpl; [constructor|].
  rewrite <- insert_perm. now constructor.
Qed.

Lemma insert_ascending k l : ascending l -> ascending (insert k l).
Proof.
  unfold ascending. induction 1 as [|k' l Hl IH Hk']; simpl.
  - repeat constructor.
  - destruct (String.leb k k') eqn:E.
    + constructor; [now constructor|]. constructor; [exact E|].
      eapply Forall_impl; [|exact Hk']. intros x. now apply leb_trans.
    + constructor; [exact IH|].
      destruct (String.leb_total k k') as [H|H]; [congruence|].
      eapply Permutation_Forall; [apply insert_perm|]. now constructor.
Qed.

Lemma sortStrings_ascending l : ascending (sortStrings l).
Proof.
  induction l; simpl; [constructor|]. now apply insert_ascending.
Qed.



(* ------------------------------------------------------------------ *)
(** * The recursion of [escapeValue] is bounded by the nesting depth *)

Lemma depth_VMapSI t : depth (VMapSI t) = S (maxDepth t).
Proof. reflexivity. Qed.

Lemma get_depth m k v : get m k = Some v -> (depth v <= maxDepth m)%nat.
Proof.
  induction m as [|[k' v'] m IH]; simpl; [discriminate|].
  destruct (String.eqb k k').
  - intros [= ->]. lia.
  - intros H. specialize (IH H). lia.
Qed.

Lemma index_depth m k : (depth (index m k) <= maxDepth m)%nat.
Proof.
  unfold index. destruct (get m k) as [v|] eqn:E.
  - eapply get_depth; eauto.
  - simpl. lia.
Qed.

Lemma escapeObjectWith_ext f g m :
  (forall k, f (index m k) = g (index m k)) ->
  escapeObjectWith f m = escapeObjectWith g m.
Proof.
  intros H. unfold escapeObjectWith.
  erewrite forEach_ext; [reflexivity|].
  intros k _. simpl. now rewrite H.
Qed.

Lemma convertMap_depth t : maxDepth (convertMap t) = 0%nat.
Proof. induction t as [|[k s] t IH]; simpl; auto. Qed.

(** Any two bounds above the depth give the same result. *)
Lemma escapeValueN_fuel n : forall n' val,
  (depth val < n)%nat -> (depth val < n')%nat ->
  escapeValueN n val = escapeValueN n' val.
Proof.
  induction n as [|n IH]; intros [|n'] val Hn Hn'; try lia.
  destruct val; simpl; try reflexivity.
  - simpl in Hn, Hn'. apply IH; simpl; lia.
  - simpl in Hn, Hn'. apply escapeObjectWith_ext. intros k.
    pose proof (index_depth (convertMap t) k) as Hk.
    rewrite convertMap_depth in Hk. apply IH; lia.
  - rewrite depth_VMapSI in Hn, Hn'. apply escapeObjectWith_ext. intros k.
    pose proof (index_depth t k). apply IH; lia.
Qed.

Lemma escapeValue_fuel n val :
  (depth val < n)%nat -> escapeValueN n val = escapeValue val.
Proof. intros H. apply escapeValueN_fuel; [exact H|lia]. Qed.

(** ** The equations of [escapeValue] and [escapeObject], as the source
    has them *)

Lemma escapeValue_VString t :
  escapeValue (VString t) = Ok (escapeString t squote).
Proof. reflexivity. Qed.

Lemma escapeValue_VTime t :
  escapeValue (VTime t) = escapeValue (VString (Format t crateLayout)).
Proof. reflexivity. Qed.

Lemma escapeValue_VMapSI t : escapeValue (VMapSI t) = escapeObject t.
Proof.
  unfold escapeValue at 1. rewrite depth_VMapSI.
  change (escapeObjectWith (escapeValueN (S (maxDepth t))) t = escapeObject t).
  apply escapeObjectWith_ext. intros k. apply escapeValue_fuel.
  pose proof (index_depth t k). lia.
Qed.

Lemma escapeValue_VMapSS t :
  escapeValue (VMapSS t) = escapeObject (convertMap t).
Proof.
  change (escapeObjectWith (escapeValueN 1) (convertMap t)
          = escapeObject (convertMap t)).
  apply escapeObjectWith_ext. intros k. apply escapeValue_fuel.
  pose proof (index_depth (convertMap t) k) as Hk.
  rewrite convertMap_depth in Hk. lia.
Qed.

Lemma escapeValue_default val :
  supported val = false -> escapeValue val = Err (UnexpectedType val).
Proof. destruct val; simpl; intros H; try discriminate; reflexivity. Qed.

(** ** [escapeValue] always returns *)

Lemma forEach_fuel {A B} (f : A -> result B) l :
  (forall a, In a l -> f a <> OutOfFuel) -> forEach f l <> OutOfFuel.
Proof.
  intros H.
  destruct (forEach_cases f l H) as [[bs ->]|(_ & _ & _ & e & _ & _ & _ & ->)];
    discriminate.
Qed.

Lemma escapeObjectWith_fuel f m :
  (forall k, f (index m k) <> OutOfFuel) ->
  escapeObjectWith f m <> OutOfFuel.
Proof.
  intros H. unfold escapeObjectWith.
  destruct (forEach _ _) as [ps|e|] eqn:E; simpl; try discriminate.
  exfalso. revert E. apply forEach_fuel. intros k _.
  specialize (H k). destruct (f (index m k)); simpl; congruence.
Qed.

Lemma escapeValueN_returns n : forall val,
  (depth val < n)%nat -> escapeValueN n val <> OutOfFuel.
Proof.
  induction n as [|n IH]; intros val Hn; [lia|].
  destruct val; simpl; try discriminate.
  - simpl in Hn. apply IH. simpl. lia.
  - simpl in Hn. apply escapeObjectWith_fuel. intros k. apply IH.
    pose proof (index_depth (convertMap t) k) as Hk.
    rewrite convertMap_depth in Hk. lia.
  - rewrite depth_VMapSI in Hn. apply escapeObjectWith_fuel. intros k.
    apply IH. pose proof (index_depth t k). lia.
Qed.

Lemma escapeValue_returns val : escapeValue val <> OutOfFuel.
Proof. apply escapeValueN_returns. lia. Qed.

Lemma escapeValue_cases val :
  (exists s, escapeValue val = Ok s) \/ (exists e, escapeValue val = Err e).
Proof.
  pose proof (escapeValue_returns val).
  destruct (escapeValue val); eauto. congruence.
Qed.

(* ------------------------------------------------------------------ *)
(** * Integers and their decimal form *)

Lemma int64_low u : 0 <= u < 2 ^ 63 -> int64 u = u.
Proof.
  unfold int64. change (2 ^ 63) with 9223372036854775808.
  change (2 ^ 64) with 18446744073709551616. intros H.
  Z.div_mod_to_equations. lia.
Qed.

Lemma int64_high u : 2 ^ 63 <= u < 2 ^ 64 -> int64 u = u - 2 ^ 64.
Proof.
  unfold int64. change (2 ^ 63) with 9223372036854775808.
  change (2 ^ 64) with 18446744073709551616. intros H.
  Z.div_mod_to_equations. lia.
Qed.

(** The decimal form reads back as the number it was made from. *)
Lemma parse_Sprint_int z : parse_int (Sprint_int z) = Some z.
Proof.
  unfold parse_int, Sprint_int. rewrite NilZero.isi.
  - simpl. now rewrite DecimalZ.of_to.
  - destruct z; simpl; try discriminate.
    intros [= H]. now apply Unsigned.to_uint_nonnil in H.
  - destruct z; simpl; try discriminate.
    intros [= H]. now apply Unsigned.to_uint_nonnil in H.
Qed.

Lemma Sprint_int_inj z1 z2 : Sprint_int z1 = Sprint_int z2 -> z1 = z2.
Proof.
  intros H. pose proof (parse_Sprint_int z1) as H1.
  rewrite H, parse_Sprint_int in H1. congruence.
Qed.

Lemma Sprint_int_neg z : z < 0 -> Sprint_int z = "-" ++ Sprint_int (- z).
Proof. destruct z; try lia. reflexivity. Qed.

(* ------------------------------------------------------------------ *)
(** * The rows of a statement *)

Lemma get_In {A} (m : gomap A) k :
  In k (keys m) -> exists v, get m k = Some v /\ In (k, v) m.
Proof.
  induction m as [|[k' v'] m IH]; simpl; [intros []|].
  destruct (String.eqb_spec k k') as [->|Hne].
  - eauto.
  - intros [H|H]; [congruence|].
    destruct (IH H) as (v & Hv & Hin). eauto.
Qed.

Lemma get_convertMap t k :
  get (convertMap t) k = option_map VString (get t k).
Proof.
  induction t as [|[k' s] t IH]; simpl; [reflexivity|].
  destruct (String.eqb k k'); auto.
Qed.

Lemma keys_convertMap t : keys (convertMap t) = keys t.
Proof. unfold keys, convertMap. rewrite map_map. reflexivity. Qed.

Lemma escapeValue_tags t : escapeValue (VMapSS t) = Ok (tagsText t).
Proof.
  rewrite escapeValue_VMapSS. unfold escapeObject, escapeObjectWith.
  rewrite keys_convertMap.
  erewrite forEach_all_Ok; [reflexivity|].
  intros k Hk. simpl.
  apply (Permutation_in _ (Permutation_sym (sortStrings_perm _))) in Hk.
  destruct (get_In t k Hk) as (s & Hs & _).
  unfold index. rewrite get_convertMap, Hs. reflexivity.
Qed.

(** The first four columns always encode: a row fails exactly when its
    fields do. *)
Lemma insertRow_fields loc m :
  insertRow loc m =
  (fields <- escapeObject (Fields m) ;; Ok (rowText loc m fields)).
Proof.
  unfold insertRow, columns. cbn [forEach].
  rewrite escapeValue_tags, escapeValue_VMapSI.
  change (escapeValue (VInt64 (int64 (HashID m))))
    with (Ok (A := string) (Sprint_int (int64 (HashID m)))).
  rewrite escapeValue_VTime, !escapeValue_VString.
  destruct (escapeObject (Fields m)); cbn [bind]; try reflexivity.
  unfold rowText. cbn [Join]. now rewrite !append_assoc.
Qed.

Lemma insertSQL_rows table metrics loc :
  insertSQL table metrics loc =
  (rows <- forEach (insertRow loc) metrics ;; Ok (statement table rows)).
Proof. reflexivity. Qed.

Lemma insertRow_Ok loc m row :
  insertRow loc m = Ok row ->
  row = rowOf loc m /\ exists f, escapeObject (Fields m) = Ok f.
Proof.
  rewrite insertRow_fields. unfold rowOf.
  destruct (escapeObject (Fields m)) as [f| |]; simpl; try discriminate.
  intros [= <-]. eauto.
Qed.

Lemma insertSQL_Ok table metrics loc sql :
  insertSQL table metrics loc = Ok sql ->
  sql = statement table (map (rowOf loc) metrics) /\
  Forall (fun m => exists f, escapeObject (Fields m) = Ok f) metrics.
Proof.
  rewrite insertSQL_rows.
  destruct (forEach (insertRow loc) metrics) as [rows| |] eqn:E; simpl;
    try discriminate.
  intros [= <-]. apply forEach_Ok in E.
  assert (rows = map (rowOf loc) metrics /\
          Forall (fun m => exists f, escapeObject (Fields m) = Ok f) metrics)
    as [-> H]; [|now split].
  induction E as [|m row ms rows Hm _ [IH1 IH2]]; simpl.
  - split; [reflexivity|constructor].
  - apply insertRow_Ok in Hm as [-> Hf]. split; [congruence|now constructor].
Qed.

Lemma insertSQL_all_Ok table metrics loc :
  Forall (fun m => exists f, escapeObject (Fields m) = Ok f) metrics ->
  insertSQL table metrics loc = Ok (statement table (map (rowOf loc) metrics)).
Proof.
  intros H. rewrite insertSQL_rows.
  erewrite forEach_all_Ok; [reflexivity|].
  intros m Hm. rewrite Forall_forall in H. destruct (H m Hm) as [f Hf].
  rewrite insertRow_fields. unfold rowOf. rewrite Hf. reflexivity.
Qed.

(* ------------------------------------------------------------------ *)
(** * Escaping with a one-character quote *)

Lemma prefix_nil s : prefix EmptyString s = true.
Proof. destruct s; reflexivity. Qed.

Lemma replaceFrom_quote q s :
  replaceFrom 0 s (String q EmptyString) (String q (String q EmptyString))
  = doubled q s.
Proof.
  induction s as [|c s IH]; [reflexivity|].
  cbn [replaceFrom doubled prefix String.length Nat.sub append].
  destruct (ascii_dec q c) as [<-|Hne].
  - rewrite prefix_nil, Ascii.eqb_refl. cbn [append]. now rewrite IH.
  - destruct (Ascii.eqb_spec c q) as [->|_]; [contradiction|]. now rewrite IH.
Qed.

Lemma Replace_quote q s :
  Replace s (String q EmptyString) (String q (String q EmptyString))
  = doubled q s.
Proof.
  unfold Replace. cbn [String.eqb]. rewrite Ascii.eqb_refl.
  apply replaceFrom_quote.
Qed.

Lemma escapeString_quote q s :
  escapeString s (String q EmptyString)
  = String q (doubled q s ++ String q EmptyString).
Proof. unfold escapeString. cbn [append]. now rewrite Replace_quote. Qed.

Lemma removeLast_app s c : removeLast (s ++ String c EmptyString) = s.
Proof.
  induction s as [|a s IH]; [reflexivity|].
  cbn [append removeLast]. rewrite IH.
  destruct s; reflexivity.
Qed.

Lemma collapse_doubled q s : collapse q (doubled q s) = s.
Proof.
  induction s as [|c s IH]; [reflexivity|].
  cbn [doubled]. destruct (Ascii.eqb_spec c q) as [->|Hne].
  - cbn [collapse]. rewrite Ascii.eqb_refl. cbn [andb]. now rewrite IH.
  - cbn [collapse]. destruct (doubled q s) as [|c' r] eqn:E.
    + cbn [collapse] in IH. now subst.
    + destruct (Ascii.eqb_spec c q) as [->|_]; [contradiction|].
      cbn [andb]. now rewrite IH.
Qed.

Lemma unquote_escapeString q s :
  unquote q (escapeString s (String q EmptyString)) = s.
Proof.
  rewrite escapeString_quote. unfold unquote. cbn [tail].
  rewrite removeLast_app. apply collapse_doubled.
Qed.

(** The characters of [doubled q s] are those of [s], each quote twice. *)
Lemma doubled_concat q s :
  doubled q s
  = String.concat EmptyString
      (map (fun c => if Ascii.eqb c q then String q (String q EmptyString)
                     else String c EmptyString)
           (list_ascii_of_string s)).
Proof.
  induction s as [|c s IH]; [reflexivity|].
  cbn [doubled list_ascii_of_string map]. rewrite IH.
  destruct (list_ascii_of_string s) as [|c' l] eqn:E.
  - cbn. destruct (Ascii.eqb c q); reflexivity.
  - cbn [String.concat map]. destruct (Ascii.eqb c q); reflexivity.
Qed.

(* ------------------------------------------------------------------ *)
(** * Maps with the same content *)



Lemma wf_value_entries m :
  wf_value (VMapSI m) -> wf_map m /\ forall k v, In (k, v) m -> wf_value v.
Proof.
  simpl. intros [Hwf Hall]. split; [exact Hwf|]. clear Hwf.
  induction m as [|[k' v'] m IH]; intros k v []; destruct Hall as [Hv Hm].
  - congruence.
  - eauto.
Qed.






(* ------------------------------------------------------------------ *)
(** * The literal of a value, as the specification words it *)

Lemma get_map_values {A B} (f : A -> B) (m : gomap A) k :
  get (map (fun kv => (fst kv, f (snd kv))) m) k = option_map f (get m k).
Proof.
  induction m as [|[k' v] m IH]; simpl; [reflexivity|].
  destruct (String.eqb k k'); auto.
Qed.

Lemma render_VMapSI t : render (VMapSI t) = renderObject (renderEntries t).
Proof. reflexivity. Qed.

Lemma keys_renderEntries m : keys (renderEntries m) = keys m.
Proof. induction m as [|[k v] m IH]; simpl; congruence. Qed.

Lemma get_renderEntries m k :
  get (renderEntries m) k = option_map render (get m k).
Proof.
  induction m as [|[k' v] m IH]; simpl; [reflexivity|].
  destruct (String.eqb k k'); auto.
Qed.

Lemma encodable_entries m k v :
  encodable (VMapSI m) = true -> get m k = Some v -> encodable v = true.
Proof.
  induction m as [|[k' v'] m IH]; simpl; [discriminate|].
  intros H. apply andb_prop in H as [Hv Hm].
  destruct (String.eqb k k'); [congruence|auto].
Qed.

Lemma sorted_key_get {A} (m : gomap A) k :
  In k (sortStrings (keys m)) -> exists v, get m k = Some v.
Proof.
  intros Hk.
  apply (Permutation_in _ (Permutation_sym (sortStrings_perm _))) in Hk.
  destruct (get_In m k Hk) as (v & Hv & _). eauto.
Qed.

(** One level of an object literal, over the literals of its values. *)
Lemma render_object_shape m :
  render (VMapSI m)
  = "{" ++ Join (map (fun k => quoted "034" k ++ " = " ++ render (index m k))
                   (sortStrings (keys m))) ", " ++ "}".
Proof.
  rewrite render_VMapSI. unfold renderObject. rewrite keys_renderEntries.
  do 3 f_equal. apply map_ext_in. intros k Hk.
  destruct (sorted_key_get m k Hk) as [v Hv].
  unfold index. now rewrite get_renderEntries, Hv.
Qed.

Lemma render_tags t : render (VMapSS t) = tagsText t.
Proof.
  cbn [render]. unfold renderObject, tagsText.
  assert (keys (map (fun kv : string * string =>
                       (fst kv, quoted "'" (snd kv))) t) = keys t) as ->.
  { unfold keys. rewrite map_map. reflexivity. }
  do 3 f_equal. apply map_ext_in. intros k Hk.
  destruct (sorted_key_get t k Hk) as [s Hs]. rewrite Hs.
  change dquote with (String "034" EmptyString).
  change squote with (String "'" EmptyString).
  rewrite !escapeString_quote.
  rewrite (get_map_values (quoted "'")), Hs. reflexivity.
Qed.

(** The encoder refines the literal of the specification. *)
Lemma escapeValue_render n : forall val,
  (depth val < n)%nat -> encodable val = true ->
  escapeValue val = Ok (render val).
Proof.
  induction n as [|n IH]; intros val Hn He; [lia|].
  destruct val; try discriminate; try reflexivity.
  - rewrite escapeValue_VString.
    change squote with (String "'" EmptyString).
    now rewrite escapeString_quote.
  - rewrite escapeValue_VTime, escapeValue_VString.
    change squote with (String "'" EmptyString).
    now rewrite escapeString_quote.
  - rewrite escapeValue_tags. now rewrite render_tags.
  - rewrite escapeValue_VMapSI, render_object_shape.
    unfold escapeObject, escapeObjectWith.
    erewrite forEach_all_Ok; [reflexivity|].
    intros k Hk. cbn beta.
    destruct (sorted_key_get t k Hk) as [v Hv].
    rewrite IH.
    + cbn [bind]. change dquote with (String "034" EmptyString).
      now rewrite escapeString_quote.
    + rewrite depth_VMapSI in Hn. pose proof (index_depth t k). lia.
    + unfold index. rewrite Hv. eapply encodable_entries; eauto.
Qed.

(* ------------------------------------------------------------------ *)
(** * Where an error comes from *)

Lemma forEach_Err_inv {A B} (f : A -> result B) l e :
  forEach f l = Err e -> exists a, In a l /\ f a = Err e.
Proof.
  induction l as [|a l IH]; simpl; [discriminate|].
  destruct (f a) as [b|e'|] eqn:Ea; simpl; try discriminate.
  - destruct (forEach f l) as [bs|e'|]; simpl; try discriminate.
    intros [= ->]. destruct IH as (x & Hx & Hfx); eauto.
  - intros [= ->]. eauto.
Qed.

Lemma escapeObject_Err m e :
  escapeObject m = Err e ->
  exists k v, In (k, v) m /\ escapeValue v = Err e.
Proof.
  unfold escapeObject, escapeObjectWith. intros H.
  destruct (forEach _ _) as [ps|e'|] eqn:E; simpl in H; try discriminate.
  injection H as ->. apply forEach_Err_inv in E as (k & Hk & Hf).
  apply (Permutation_in _ (Permutation_sym (sortStrings_perm _))) in Hk.
  destruct (get_In m k Hk) as (v & Hv & Hin).
  exists k, v. split; [exact Hin|].
  unfold index in Hf. rewrite Hv in Hf.
  destruct (escapeValue v); simpl in Hf; congruence.
Qed.

(** An error of the encoder is made in the default case of the type
    switch, from a value of an unsupported type inside the encoded one. *)
Lemma escapeValue_Err n : forall val e,
  (depth val < n)%nat -> escapeValue val = Err e ->
  exists t, e = UnexpectedType t /\ supported t = false /\ inside t val.
Proof.
  induction n as [|n IH]; intros val e Hn He; [lia|].
  destruct val;
    try (injection He as <-; eexists; repeat split; constructor);
    try discriminate.
  - rewrite escapeValue_tags in He. discriminate.
  - rewrite escapeValue_VMapSI in He.
    apply escapeObject_Err in He as (k & v & Hin & Hv).
    destruct (IH v e) as (t0 & -> & Hs & Hi); [|exact Hv|].
    + rewrite depth_VMapSI in Hn.
      assert (depth v <= maxDepth t)%nat; [|lia].
      clear - Hin. induction t as [|[k' v'] t IHt]; [destruct Hin|].
      destruct Hin as [H|H].
      * injection H as -> ->. simpl. lia.
      * specialize (IHt H). simpl. lia.
    + exists t0. repeat split; auto. econstructor; eauto.
Qed.

Lemma forEach_Ok_In {A B} (f : A -> result B) l bs a :
  forEach f l = Ok bs -> In a l -> exists b, f a = Ok b.
Proof.
  intros H. apply forEach_Ok in H.
  induction H as [|x b l bs Hx _ IH]; intros []; subst; eauto.
Qed.

Lemma insertRow_returns loc m : insertRow loc m <> OutOfFuel.
Proof.
  rewrite insertRow_fields, <- escapeValue_VMapSI.
  pose proof (escapeValue_returns (VMapSI (Fields m))).
  destruct (escapeValue (VMapSI (Fields m))); simpl; congruence.
Qed.

Lemma insertSQL_returns table metrics loc :
  insertSQL table metrics loc <> OutOfFuel.
Proof.
  rewrite insertSQL_rows.
  pose proof (forEach_fuel (insertRow loc) metrics
                (fun m _ => insertRow_returns loc m)).
  destruct (forEach (insertRow loc) metrics); simpl; congruence.
Qed.

(** Only the fields of a record can fail to encode. *)
Lemma column_Err loc m c e :
  In c (columns m loc) -> escapeValue c = Err e ->
  escapeObject (Fields m) = Err e.
Proof.
  unfold columns.
  intros [<-|[<-|[<-|[<-|[<-|[]]]]]] H; try discriminate.
  - rewrite escapeValue_tags in H. discriminate.
  - now rewrite <- escapeValue_VMapSI.
Qed.

Lemma tupleOf_rowOf loc m : tupleOf loc m = rowOf loc m.
Proof.
  unfold tupleOf, rowOf, rowText, columns. cbn [map Join].
  rewrite escapeValue_tags, escapeValue_VMapSI, escapeValue_VTime,
    !escapeValue_VString.
  cbn [text]. change (escapeValue (VInt64 (int64 (HashID m))))
    with (Ok (A := string) (Sprint_int (int64 (HashID m)))).
  cbn [text]. now rewrite !append_assoc.
Qed.


(* ------------------------------------------------------------------ *)
(** * The text of a timestamp *)

(** ** No character of it is a single quote *)

Lemma noQuote_doubled s : noQuote s = true -> doubled "'" s = s.
Proof.
  induction s as [|c s IH]; simpl; [reflexivity|].
  destruct (Ascii.eqb c "'"); simpl; [discriminate|].
  intros H. now rewrite IH.
Qed.

Lemma noQuote_app s1 s2 :
  noQuote (s1 ++ s2) = noQuote s1 && noQuote s2.
Proof.
  induction s1 as [|c s1 IH]; simpl; [reflexivity|].
  now rewrite IH, andb_assoc.
Qed.

Lemma noQuote_take n : forall s, noQuote s = true -> noQuote (take n s) = true.
Proof.
  induction n as [|n IH]; intros [|c s]; simpl; auto.
  intros H. apply andb_prop in H as [-> H]. simpl. auto.
Qed.

Lemma noQuote_trimZeros s : noQuote s = true -> noQuote (trimZeros s) = true.
Proof.
  induction s as [|c s IH]; simpl; [reflexivity|].
  intros H. apply andb_prop in H as [Hc H]. specialize (IH H).
  destruct (trimZeros s).
  - destruct (Ascii.eqb c "0"); simpl; [reflexivity|]. now rewrite Hc.
  - simpl in *. now rewrite Hc, IH.
Qed.

Lemma digit_cases d :
  0 <= d < 10 ->
  In (digit d) ["0"; "1"; "2"; "3"; "4"; "5"; "6"; "7"; "8"; "9"]%char.
Proof.
  intros H.
  assert (d = 0 \/ d = 1 \/ d = 2 \/ d = 3 \/ d = 4 \/ d = 5 \/ d = 6 \/
          d = 7 \/ d = 8 \/ d = 9) as Hd by lia.
  repeat (destruct Hd as [->|Hd]; [simpl; tauto|]). subst. simpl. tauto.
Qed.

Lemma noQuote_digit d :
  0 <= d < 10 -> noQuote (String (digit d) EmptyString) = true.
Proof.
  intros H. apply digit_cases in H. simpl in H.
  repeat (destruct H as [<-|H]; [reflexivity|]). destruct H.
Qed.

Lemma noQuote_zeros n : noQuote (zeros n) = true.
Proof. induction n; simpl; auto. Qed.

Lemma noQuote_fixed w : forall u, noQuote (fixed w u) = true.
Proof.
  induction w as [|w IH]; intros u; simpl; [reflexivity|].
  rewrite noQuote_app, IH, noQuote_digit; [reflexivity|].
  apply Z.mod_pos_bound. lia.
Qed.

Lemma noQuote_utoa fuel : forall u, 0 <= u -> noQuote (utoa fuel u) = true.
Proof.
  induction fuel as [|fuel IH]; intros u Hu; simpl; [reflexivity|].
  destruct (Z.ltb_spec u 10).
  - apply noQuote_digit. lia.
  - rewrite noQuote_app, IH, noQuote_digit; [reflexivity| |].
    + apply Z.mod_pos_bound. lia.
    + apply Z.div_pos; lia.
Qed.

Lemma noQuote_appendInt x w : noQuote (appendInt x w) = true.
Proof.
  unfold appendInt. rewrite !noQuote_app, noQuote_zeros, noQuote_utoa by lia.
  destruct (x <? 0); reflexivity.
Qed.

Lemma noQuote_formatNano u n : noQuote (formatNano u n) = true.
Proof.
  unfold formatNano.
  pose proof (noQuote_trimZeros _ (noQuote_take n _ (noQuote_fixed 9 u))) as H.
  destruct (trimZeros _); [reflexivity|exact H].
Qed.

Lemma noQuote_Format t : noQuote (Format t crateLayout) = true.
Proof.
  unfold Format, crateLayout. cbn [map String.concat formatChunk].
  rewrite !noQuote_app, !noQuote_appendInt, noQuote_formatNano.
  destruct (_ <? 0); reflexivity.
Qed.

(** So the quoted text of a timestamp is the text between two quotes. *)
Lemma escapeValue_time t :
  escapeValue (VTime t) = Ok ("'" ++ Format t crateLayout ++ "'").
Proof.
  rewrite escapeValue_VTime, escapeValue_VString.
  change squote with (String "'" EmptyString).
  rewrite escapeString_quote, noQuote_doubled by apply noQuote_Format.
  reflexivity.
Qed.

(** ** Its digits *)

Lemma length_fixed w : forall u, String.length (fixed w u) = w.
Proof.
  induction w as [|w IH]; intros u; simpl; [reflexivity|].
  rewrite length_append, IH. simpl. lia.
Qed.

Lemma zeros_snoc n : zeros n ++ "0" = String "0" (zeros n).
Proof. induction n as [|n IH]; simpl; [reflexivity|]. now rewrite IH. Qed.

Lemma fixed_zero w : fixed w 0 = zeros w.
Proof.
  induction w as [|w IH]; [reflexivity|].
  cbn [fixed zeros]. change (0 / 10) with 0. rewrite IH.
  apply zeros_snoc.
Qed.

(** Below [10^w], padding the digits to [w] places gives the last [w]
    digits. *)
Lemma utoa_fixed w : forall fuel u,
  (1 <= w <= fuel)%nat -> 0 <= u < 10 ^ Z.of_nat w ->
  zeros (w - String.length (utoa fuel u)) ++ utoa fuel u = fixed w u.
Proof.
  induction w as [|w IH]; intros [|fuel] u Hw Hu; try lia.
  cbn [utoa fixed]. destruct (Z.ltb_spec u 10) as [Hlt|Hge].
  - cbn [String.length]. rewrite Z.div_small, Z.mod_small by lia.
    rewrite fixed_zero. replace (S w - 1)%nat with w by lia. reflexivity.
  - assert (1 <= w)%nat as Hw1.
    { destruct w; [simpl in Hu; lia|lia]. }
    rewrite length_append. cbn [String.length].
    replace (S w - (String.length (utoa fuel (u / 10)) + 1))%nat
      with (w - String.length (utoa fuel (u / 10)))%nat by lia.
    rewrite <- append_assoc, IH; [reflexivity|lia|].
    rewrite Nat2Z.inj_succ, Z.pow_succ_r in Hu by lia.
    split; [apply Z.div_pos; lia|].
    apply Z.div_lt_upper_bound; lia.
Qed.

Lemma appendInt_fixed x w :
  (1 <= w <= 20)%nat -> 0 <= x < 10 ^ Z.of_nat w ->
  appendInt x w = fixed w x.
Proof.
  intros Hw Hx. unfold appendInt.
  destruct (Z.ltb_spec x 0); [lia|].
  rewrite Z.abs_eq by lia. cbn [append]. now apply utoa_fixed.
Qed.

Lemma take_app_length n : forall s1 s2,
  (n <= String.length s1)%nat -> take n (s1 ++ s2) = take n s1.
Proof.
  induction n as [|n IH]; intros s1 s2 H; [reflexivity|].
  destruct s1 as [|c s1]; simpl in *; [lia|].
  rewrite IH by lia. reflexivity.
Qed.

Lemma take_fixed w k : forall u,
  take w (fixed (w + k) u) = fixed w (u / 10 ^ Z.of_nat k).
Proof.
  induction k as [|k IH]; intros u.
  - rewrite Nat.add_0_r, Z.div_1_r.
    induction w as [|w IHw] in u |- *; [reflexivity|].
    pose proof (length_fixed (S w) u) as Hl.
    revert Hl. generalize (fixed (S w) u) as s. clear.
    induction (S w) as [|n IHn]; intros [|c s] H; simpl in *; try lia;
      try reflexivity.
    f_equal. apply IHn. lia.
  - replace (w + S k)%nat with (S (w + k)) by lia. cbn [fixed].
    rewrite take_app_length by (rewrite length_fixed; lia).
    rewrite IH, Z.div_div, <- Z.pow_succ_r, <- Nat2Z.inj_succ by lia.
    reflexivity.
Qed.

(** ** The calendar *)

Lemma dayOfYear_range doe :
  0 <= doe < 146097 ->
  0 <= doe - (365 * ((doe - doe / 1460 + doe / 36524 - doe / 146096) / 365)
              + (doe - doe / 1460 + doe / 36524 - doe / 146096) / 365 / 4
              - (doe - doe / 1460 + doe / 36524 - doe / 146096) / 365 / 100)
    <= 365.
Proof. intros H. Z.div_mod_to_equations. lia. Qed.

Lemma monthDay_range doy :
  0 <= doy <= 365 ->
  1 <= (if (5 * doy + 2) / 153 <? 10
        then (5 * doy + 2) / 153 + 3 else (5 * doy + 2) / 153 - 9) <= 12 /\
  1 <= doy - (153 * ((5 * doy + 2) / 153) + 2) / 5 + 1 <= 31.
Proof.
  intros H. destruct (Z.ltb_spec ((5 * doy + 2) / 153) 10);
    Z.div_mod_to_equations; lia.
Qed.

Lemma Month_Day_range t : 1 <= Month t <= 12 /\ 1 <= Day t <= 31.
Proof.
  unfold Month, Day, civil. cbn [fst snd].
  set (z := wall t / 86400 + 719468).
  assert (0 <= z - z / 146097 * 146097 < 146097) as Hdoe
    by (Z.div_mod_to_equations; lia).
  apply monthDay_range, dayOfYear_range, Hdoe.
Qed.

Lemma clock_range t :
  0 <= Hour t < 24 /\ 0 <= Minute t < 60 /\ 0 <= Second t < 60.
Proof.
  unfold Hour, Minute, Second. generalize (wall t). intros w.
  repeat split; Z.div_mod_to_equations; lia.
Qed.

(** The text of a timestamp, piece by piece. *)
Lemma Format_shape t :
  Format t crateLayout
  = appendInt (Year t) 4 ++ "-" ++ fixed 2 (Month t) ++ "-"
    ++ fixed 2 (Day t) ++ "T" ++ fixed 2 (Hour t) ++ ":"
    ++ fixed 2 (Minute t) ++ ":" ++ fixed 2 (Second t)
    ++ fraction (nsec t / 1000000) ++ formatChunk t stdNumericTZ.
Proof.
  pose proof (Month_Day_range t) as [Hm Hd].
  pose proof (clock_range t) as (Hh & Hmi & Hs).
  unfold Format, crateLayout.
  cbn [map String.concat].
  generalize (formatChunk t stdNumericTZ) as zone. intros zone.
  cbn [formatChunk].
  rewrite (appendInt_fixed (Month t) 2) by (simpl; lia).
  rewrite (appendInt_fixed (Day t) 2) by (simpl; lia).
  rewrite (appendInt_fixed (Hour t) 2) by (simpl; lia).
  rewrite (appendInt_fixed (Minute t) 2) by (simpl; lia).
  rewrite (appendInt_fixed (Second t) 2) by (simpl; lia).
  unfold formatNano, Nanosecond.
  change 9%nat with (3 + 6)%nat. rewrite take_fixed.
  change (10 ^ Z.of_nat 6) with 1000000.
  cbn [append]. reflexivity.
Qed.

(** A year from 0 to 9999 has four digits. *)
Lemma year_shape y : 0 <= y <= 9999 -> appendInt y 4 = fixed 4 y.
Proof. intros H. apply appendInt_fixed; simpl; lia. Qed.





(* ------------------------------------------------------------------ *)
(** * Values that do not encode *)

Lemma get_wf {A} (m : gomap A) k v :
  wf_map m -> In (k, v) m -> get m k = Some v.
Proof.
  unfold wf_map. induction m as [|[k' v'] m IH]; simpl; intros Hwf Hin;
    [destruct Hin|].
  inversion Hwf as [|? ? Hnin Hnd]; subst.
  destruct Hin as [[= -> ->]|Hin].
  - now rewrite String.eqb_refl.
  - destruct (String.eqb_spec k k') as [->|_]; [|auto].
    exfalso. apply Hnin. apply (in_map fst) in Hin. exact Hin.
Qed.

Lemma encodable_false_entry m :
  encodable (VMapSI m) = false ->
  exists k v, In (k, v) m /\ encodable v = false.
Proof.
  induction m as [|[k v] m IH]; simpl; [discriminate|].
  intros H. apply andb_false_iff in H as [H|H].
  - exists k, v. auto.
  - destruct (IH H) as (k' & v' & Hin & Hv). exists k', v'. auto.
Qed.

(** When the value of some key fails, the object fails. *)
Lemma escapeObject_key_Err m k e :
  In k (keys m) -> escapeValue (index m k) = Err e ->
  exists e', escapeObject m = Err e'.
Proof.
  intros Hk He. unfold escapeObject, escapeObjectWith.
  set (f := fun k0 : string =>
              val <- escapeValue (index m k0) ;;
              Ok (escapeString k0 dquote ++ " = " ++ val)).
  destruct (forEach_cases f (sortStrings (keys m)))
    as [[ps Hps]|(_ & _ & _ & e' & _ & _ & _ & He')].
  - intros k0 _. unfold f.
    pose proof (escapeValue_returns (index m k0)).
    destruct (escapeValue (index m k0)); simpl; congruence.
  - apply (Permutation_in _ (sortStrings_perm _)) in Hk.
    destruct (forEach_Ok_In f _ _ k Hps Hk) as [b Hb].
    unfold f in Hb. rewrite He in Hb. discriminate.
  - rewrite He'. simpl. eauto.
Qed.

Lemma escapeValue_not_encodable n : forall val,
  (depth val < n)%nat -> wf_value val -> encodable val = false ->
  exists t, escapeValue val = Err (UnexpectedType t) /\
            supported t = false /\ inside t val.
Proof.
  induction n as [|n IH]; intros val Hn Hwf He; [lia|].
  destruct val; try discriminate;
    try (eexists; split; [reflexivity|split; [reflexivity|constructor]]).
  apply wf_value_entries in Hwf as [Hwf Hent].
  destruct (encodable_false_entry _ He) as (k & v & Hin & Hv).
  assert (depth v < n)%nat as Hd.
  { rewrite depth_VMapSI in Hn.
    pose proof (get_depth t k v (get_wf t k v Hwf Hin)). lia. }
  destruct (IH v Hd (Hent k v Hin) Hv) as (t0 & Ht0 & _).
  assert (In k (keys t)) as Hk by (apply (in_map fst) in Hin; exact Hin).
  destruct (escapeObject_key_Err t k (UnexpectedType t0) Hk) as [e' He'].
  { unfold index. now rewrite (get_wf t k v Hwf Hin). }
  rewrite <- escapeValue_VMapSI in He'.
  destruct (escapeValue_Err _ _ _ (Nat.lt_succ_diag_r _) He')
    as (t1 & -> & Hs & Hi).
  exists t1. rewrite He'. auto.
Qed.

Lemma insertSQL_encodable table metrics loc :
  encodable_batch metrics = true ->
  insertSQL table metrics loc = Ok (statement table (map (rowOf loc) metrics)).
Proof.
  intros H. apply insertSQL_all_Ok. rewrite Forall_forall. intros m Hm.
  unfold encodable_batch in H. rewrite forallb_forall in H.
  exists (render (VMapSI (Fields m))). rewrite <- escapeValue_VMapSI.
  apply (escapeValue_render _ _ (Nat.lt_succ_diag_r _)). auto.
Qed.

Lemma insertSQL_not_encodable table metrics loc :
  wf_batch metrics -> encodable_batch metrics = false ->
  exists t, insertSQL table metrics loc = Err (UnexpectedType t) /\
            supported t = false.
Proof.
  intros Hwf He.
  assert (exists m, In m metrics /\ encodable (VMapSI (Fields m)) = false)
    as (m & Hm & Hf).
  { unfold encodable_batch in He. clear Hwf.
    induction metrics as [|m ms IH]; simpl in He; [discriminate|].
    apply andb_false_iff in He as [He|He].
    - exists m. simpl. auto.
    - destruct (IH He) as (m' & Hin & Hm'). exists m'. simpl. auto. }
  unfold wf_batch in Hwf. rewrite Forall_forall in Hwf.
  destruct (escapeValue_not_encodable _ _ (Nat.lt_succ_diag_r _)
              (Hwf m Hm) Hf) as (t0 & Ht0 & _).
  rewrite escapeValue_VMapSI in Ht0.
  destruct (forEach_cases (insertRow loc) metrics)
    as [[rows Hrows]|(before & m' & after & e' & -> & Hm' & _ & Hall)].
  - intros x _. apply insertRow_returns.
  - destruct (forEach_Ok_In _ _ _ m Hrows Hm) as [row Hrow].
    apply insertRow_Ok in Hrow as [_ [f Hf']]. congruence.
  - rewrite insertRow_fields in Hm'.
    destruct (escapeObject (Fields m')) as [f|e''|] eqn:Ef; simpl in Hm';
      try discriminate.
    injection Hm' as ->. rewrite <- escapeValue_VMapSI in Ef.
    destruct (escapeValue_Err _ _ _ (Nat.lt_succ_diag_r _) Ef)
      as (t & -> & Hs & _).
    exists t. rewrite insertSQL_rows, Hall. auto.
Qed.

(* ------------------------------------------------------------------ *)
(** * Counting quotes *)

Lemma count_app q s1 s2 : count q (s1 ++ s2) = (count q s1 + count q s2)%nat.
Proof. induction s1 as [|c s1 IH]; simpl; [reflexivity|]. rewrite IH. lia. Qed.

Lemma count_doubled q s : count q (doubled q s) = (2 * count q s)%nat.
Proof.
  induction s as [|c s IH]; simpl; [reflexivity|].
  destruct (Ascii.eqb c q) eqn:E; simpl.
  - rewrite Ascii.eqb_refl, IH. lia.
  - rewrite E, IH. lia.
Qed.

Lemma length_doubled q s :
  String.length (doubled q s) = (String.length s + count q s)%nat.
Proof.
  induction s as [|c s IH]; simpl; [reflexivity|].
  destruct (Ascii.eqb c q); simpl; rewrite IH; lia.
Qed.

Lemma doubled_absent q s : count q s = 0%nat -> doubled q s = s.
Proof.
  induction s as [|c s IH]; simpl; [reflexivity|].
  destruct (Ascii.eqb c q); simpl; [discriminate|].
  intros H. now rewrite IH.
Qed.

(* ------------------------------------------------------------------ *)
(** * Batches put together *)

Lemma forEach_app {A B} (f : A -> result B) l1 l2 :
  forEach f (l1 ++ l2)%list
  = (bs1 <- forEach f l1 ;; bs2 <- forEach f l2 ;; Ok (bs1 ++ bs2)%list).
Proof.
  induction l1 as [|a l1 IH]; simpl.
  - destruct (forEach f l2); reflexivity.
  - destruct (f a); simpl; try reflexivity. rewrite IH.
    destruct (forEach f l1); simpl; try reflexivity.
    destruct (forEach f l2); reflexivity.
Qed.

(* ------------------------------------------------------------------ *)
(** * Reading a timestamp back *)

Lemma append_inv_length (a a' b b' : string) :
  String.length a = String.length a' -> a ++ b = a' ++ b' ->
  a = a' /\ b = b'.
Proof.
  revert a'. induction a as [|c a IH]; intros [|c' a'] Hl H;
    simpl in *; try discriminate; [auto|].
  injection H as -> H. injection Hl as Hl.
  destruct (IH a' Hl H) as [-> ->]. auto.
Qed.

Lemma append_inv_tail (a a' c : string) : a ++ c = a' ++ c -> a = a'.
Proof.
  intros H. apply (append_inv_length a a' c c); [|exact H].
  apply (f_equal String.length) in H. rewrite !length_append in H. lia.
Qed.

Lemma digit_inj d d' : 0 <= d < 10 -> 0 <= d' < 10 -> digit d = digit d' -> d = d'.
Proof.
  unfold digit. intros Hd Hd' H.
  apply (f_equal N_of_ascii) in H.
  rewrite !N_ascii_embedding in H by lia. lia.
Qed.

Lemma fixed_inj w : forall u u',
  0 <= u < 10 ^ Z.of_nat w -> 0 <= u' < 10 ^ Z.of_nat w ->
  fixed w u = fixed w u' -> u = u'.
Proof.
  induction w as [|w IH]; intros u u' Hu Hu' H.
  - simpl in Hu, Hu'. lia.
  - rewrite Nat2Z.inj_succ, Z.pow_succ_r in Hu, Hu' by lia.
    cbn [fixed] in H.
    apply append_inv_length in H as [H1 H2];
      [|now rewrite !length_fixed].
    injection H2 as H2.
    apply digit_inj in H2; try (apply Z.mod_pos_bound; lia).
    apply IH in H1;
      try (split; [apply Z.div_pos; lia|apply Z.div_lt_upper_bound; lia]).
    rewrite (Z.div_mod u 10), (Z.div_mod u' 10) by lia. congruence.
Qed.

(** A string is its trimmed form followed by the zeros trimmed. *)
Lemma trimZeros_pad s :
  s = trimZeros s
      ++ zeros (String.length s - String.length (trimZeros s)).
Proof.
  induction s as [|c s IH]; [reflexivity|].
  cbn [trimZeros]. destruct (trimZeros s) as [|c' r] eqn:E.
  - cbn [append String.length] in IH. rewrite Nat.sub_0_r in IH.
    destruct (Ascii.eqb_spec c "0") as [->|_].
    + cbn [append String.length]. rewrite Nat.sub_0_r.
      cbn [zeros]. now f_equal.
    + cbn [append String.length].
      replace (S (String.length s) - 1)%nat with (String.length s) by lia.
      now f_equal.
  - cbn [append String.length] in *.
    replace (S (String.length s) - S (S (String.length r)))%nat
      with (String.length s - S (String.length r))%nat by lia.
    now f_equal.
Qed.

Lemma trimZeros_inj s s' :
  String.length s = String.length s' -> trimZeros s = trimZeros s' -> s = s'.
Proof.
  intros Hl Ht. rewrite (trimZeros_pad s), (trimZeros_pad s'), Ht, Hl.
  reflexivity.
Qed.

Lemma fraction_inj ms ms' :
  0 <= ms < 1000 -> 0 <= ms' < 1000 -> fraction ms = fraction ms' -> ms = ms'.
Proof.
  intros H H' E. apply (fixed_inj 3); [simpl; lia|simpl; lia|].
  apply trimZeros_inj; [now rewrite !length_fixed|].
  unfold fraction in E.
  destruct (trimZeros (fixed 3 ms)), (trimZeros (fixed 3 ms'));
    simpl in E; congruence.
Qed.

(** The date of a day number gives the day number back. *)
Lemma daysFromCivil_civil days :
  daysFromCivil (fst (fst (civil days))) (snd (fst (civil days)))
    (snd (civil days)) = days.
Proof.
  unfold civil, daysFromCivil. cbn [fst snd].
  set (z := days + 719468).
  set (era := z / 146097).
  set (doe := z - era * 146097).
  assert (0 <= doe < 146097)
    by (subst doe era; Z.div_mod_to_equations; lia).
  set (yoe := (doe - doe / 1460 + doe / 36524 - doe / 146096) / 365).
  set (doy := doe - (365 * yoe + yoe / 4 - yoe / 100)).
  assert (0 <= yoe <= 399) by (subst yoe; Z.div_mod_to_equations; lia).
  assert (0 <= doy <= 365)
    by (subst doy yoe; Z.div_mod_to_equations; lia).
  set (mp := (5 * doy + 2) / 153).
  assert (0 <= mp <= 11) by (subst mp; Z.div_mod_to_equations; lia).
  destruct (Z.ltb_spec mp 10).
  - destruct (Z.leb_spec (mp + 3) 2); [lia|].
    destruct (Z.ltb_spec 2 (mp + 3)); [|lia].
    replace (yoe + era * 400 + 0) with (era * 400 + yoe) by lia.
    assert ((era * 400 + yoe) / 400 = era) as ->
      by (Z.div_mod_to_equations; lia).
    replace (mp + 3 - 3) with mp by lia.
    subst mp doy z. Z.div_mod_to_equations. lia.
  - destruct (Z.leb_spec (mp - 9) 2); [|lia].
    destruct (Z.ltb_spec 2 (mp - 9)); [lia|].
    replace (mp - 9 + 9) with mp by lia.
    replace (yoe + era * 400 + 1 - 1) with (era * 400 + yoe) by lia.
    assert ((era * 400 + yoe) / 400 = era) as ->
      by (Z.div_mod_to_equations; lia).
    subst mp doy z. Z.div_mod_to_equations. lia.
Qed.

(** The six fields of the wall clock give the wall clock back. *)
Lemma wall_fields t :
  wall t = daysFromCivil (Year t) (Month t) (Day t) * 86400
           + Hour t * 3600 + Minute t * 60 + Second t.
Proof.
  unfold Year, Month, Day. rewrite daysFromCivil_civil.
  unfold Hour, Minute, Second. Z.div_mod_to_equations. lia.
Qed.

Lemma zone_offset t t' :
  offset t = offset t' ->
  formatChunk t stdNumericTZ = formatChunk t' stdNumericTZ.
Proof. intros H. cbn [formatChunk]. now rewrite H. Qed.

Lemma Format_fields t t' :
  0 <= Year t <= 9999 -> 0 <= Year t' <= 9999 -> offset t = offset t' ->
  Format t crateLayout = Format t' crateLayout ->
  Year t = Year t' /\ Month t = Month t' /\ Day t = Day t' /\
  Hour t = Hour t' /\ Minute t = Minute t' /\ Second t = Second t' /\
  fraction (nsec t / 1000000) = fraction (nsec t' / 1000000).
Proof.
  intros Hy Hy' Ho H.
  pose proof (Month_Day_range t) as [Hm Hd].
  pose proof (Month_Day_range t') as [Hm' Hd'].
  pose proof (clock_range t) as (Hh & Hmi & Hs).
  pose proof (clock_range t') as (Hh' & Hmi' & Hs').
  rewrite !Format_shape, !year_shape, (zone_offset t t' Ho) in H
    by assumption.
  apply append_inv_length in H as [HY H]; [|now rewrite !length_fixed].
  cbn [append] in H. apply (f_equal tail) in H. cbn [tail] in H.
  apply append_inv_length in H as [HM H]; [|now rewrite !length_fixed].
  cbn [append] in H. apply (f_equal tail) in H. cbn [tail] in H.
  apply append_inv_length in H as [HD H]; [|now rewrite !length_fixed].
  cbn [append] in H. apply (f_equal tail) in H. cbn [tail] in H.
  apply append_inv_length in H as [Hh0 H]; [|now rewrite !length_fixed].
  cbn [append] in H. apply (f_equal tail) in H. cbn [tail] in H.
  apply append_inv_length in H as [Hm0 H]; [|now rewrite !length_fixed].
  cbn [append] in H. apply (f_equal tail) in H. cbn [tail] in H.
  apply append_inv_length in H as [Hs0 H]; [|now rewrite !length_fixed].
  apply append_inv_tail in H.
  apply fixed_inj in HY, HM, HD, Hh0, Hm0, Hs0; simpl; try lia.
  auto 10.
Qed.

(* ------------------------------------------------------------------ *)
(** * The earlier revision *)

Lemma unsignedFree_index m k :
  unsignedFree (VMapSI m) = true -> unsignedFree (index m k) = true.
Proof.
  unfold index. induction m as [|[k' v] m IH]; simpl; [reflexivity|].
  intros H. apply andb_prop in H as [Hv Hm].
  destruct (String.eqb k k'); auto.
Qed.

Lemma Earlier_escapeValueN n : forall val,
  unsignedFree val = true -> Earlier.escapeValueN n val = escapeValueN n val.
Proof.
  induction n as [|n IH]; intros val H; [reflexivity|].
  destruct val; try discriminate; try reflexivity.
  - simpl. apply IH. reflexivity.
  - simpl. apply escapeObjectWith_ext. intros k. apply IH.
    unfold index. rewrite get_convertMap. destruct (get t k); reflexivity.
  - simpl. apply escapeObjectWith_ext. intros k. apply IH.
    now apply unsignedFree_index.
Qed.

Lemma Earlier_escapeValue val :
  unsignedFree val = true -> Earlier.escapeValue val = escapeValue val.
Proof. apply Earlier_escapeValueN. Qed.

Lemma In_same_location t l : loc t = l -> In_ t l = t.
Proof. destruct t. simpl. intros ->. reflexivity. Qed.

(* ------------------------------------------------------------------ *)
(** * Reading a literal inside a statement *)

Lemma scanBody_doubled q s rest :
  notAt q rest = true ->
  scanBody q (doubled q s ++ String q rest) = Some (s, rest).
Proof.
  intros Hr. induction s as [|c s IH].
  - cbn [doubled append scanBody]. rewrite Ascii.eqb_refl.
    destruct rest as [|c' r]; [reflexivity|].
    simpl in Hr. destruct (Ascii.eqb c' q); [discriminate|reflexivity].
  - cbn [doubled]. destruct (Ascii.eqb c q) eqn:E.
    + apply Ascii.eqb_eq in E. subst c.
      cbn [append scanBody]. rewrite Ascii.eqb_refl, IH. reflexivity.
    + cbn [append scanBody]. rewrite E, IH. reflexivity.
Qed.

(* ================================================================== *)
(** * Part IV: the statements of the specification *)

(** C1: for every record whose identity hash is at least 2^63, the literal
    [insertSQL] puts first in the record's row is the decimal form of the
    hash read as a signed 64-bit number, [HashID m - 2^64]: a negative
    number, which reads back as that value, and is neither the unsigned
    decimal form of the hash nor the largest signed value. *)
Theorem hash_id_signed_literal table metrics loc sql :
  insertSQL table metrics loc = Ok sql ->
  sql = statement table (map (rowOf loc) metrics) /\
  forall m, In m metrics -> 2 ^ 63 <= HashID m < 2 ^ 64 ->
    nth 0 (columns m loc) VNil = VInt64 (HashID m - 2 ^ 64) /\
    escapeValue (VInt64 (HashID m - 2 ^ 64))
      = Ok (Sprint_int (HashID m - 2 ^ 64)) /\
    (exists rest,
       rowOf loc m = "(" ++ Sprint_int (HashID m - 2 ^ 64) ++ ", " ++ rest) /\
    parse_int (Sprint_int (HashID m - 2 ^ 64)) = Some (HashID m - 2 ^ 64) /\
    HashID m - 2 ^ 64 < 0 /\
    Sprint_int (HashID m - 2 ^ 64) = "-" ++ Sprint_int (2 ^ 64 - HashID m) /\
    Sprint_int (HashID m - 2 ^ 64) <> Sprint_int (HashID m) /\
    Sprint_int (HashID m - 2 ^ 64) <> Sprint_int (2 ^ 63 - 1).
Proof.
  intros H. apply insertSQL_Ok in H as [-> _]. split; [reflexivity|].
  intros m _ Hm. pose proof (int64_high _ Hm) as E.
  repeat split.
  - simpl. now rewrite E.
  - unfold rowOf, rowText. rewrite E. eauto.
  - apply parse_Sprint_int.
  - lia.
  - rewrite Sprint_int_neg by lia. f_equal. f_equal. lia.
  - intros Heq. apply Sprint_int_inj in Heq. lia.
  - intros Heq. apply Sprint_int_inj in Heq. lia.
Qed.

Lemma hash_id_signed_literal_witness :
  insertSQL "metrics" [cpu] UTC
    = Ok (statement "metrics" (map (rowOf UTC) [cpu])) /\
  nth 0 (columns cpu UTC) VNil = VInt64 (-4141642024207325902) /\
  Sprint_int (HashID cpu - 2 ^ 64) = "-4141642024207325902".
Proof.
  assert (insertSQL "metrics" [cpu] UTC
          = Ok (statement "metrics" (map (rowOf UTC) [cpu]))) as H
    by (vm_compute; reflexivity).
  destruct (hash_id_signed_literal "metrics" [cpu] UTC _ H) as [_ Hm].
  destruct (Hm cpu) as (Hcol & _).
  - simpl. auto.
  - simpl. lia.
  - split; [exact H|]. split; [exact Hcol|]. vm_compute. reflexivity.
Defined.

(** C2, as the code has it: on an empty sequence of records [insertSQL]
    returns no error; it returns the statement text with no row between
    VALUES and the closing semicolon. *)
Theorem insertSQL_empty table loc :
  insertSQL table [] loc
  = Ok ("INSERT INTO " ++ table ++ columnNames ++ newline
        ++ "VALUES" ++ newline ++ ";").
Proof. reflexivity. Qed.

Lemma insertSQL_empty_counterexample :
  insertSQL "metrics" [] UTC
  = Ok ("INSERT INTO metrics" ++ columnNames ++ newline
        ++ "VALUES" ++ newline ++ ";").
Proof. reflexivity. Qed.

(** C3: when the encoding of a column of a record fails, [insertSQL]
    returns an error and no statement text.  The error is the one of the
    first record whose fields fail, all records before it having encoded;
    it was made in the default case of the encoder from a value of an
    unsupported type found inside those fields, and carries the name of
    that value's type. *)
Theorem insertSQL_unsupported table metrics loc m c e :
  In m metrics -> In c (columns m loc) -> escapeValue c = Err e ->
  exists before m' after t,
    metrics = (before ++ m' :: after)%list /\
    Forall (fun x => exists row, insertRow loc x = Ok row) before /\
    escapeObject (Fields m') = Err (UnexpectedType t) /\
    inside t (VMapSI (Fields m')) /\
    supported t = false /\
    insertSQL table metrics loc = Err (UnexpectedType t) /\
    errorType (UnexpectedType t) = typeName t /\
    text (insertSQL table metrics loc) = EmptyString.
Proof.
  intros Hm Hc He. apply (column_Err loc m c e Hc) in He.
  destruct (forEach_cases (insertRow loc) metrics)
    as [[rows Hrows]|(before & m' & after & e' & -> & Hm' & Hbefore & Hall)].
  - intros x _. apply insertRow_returns.
  - destruct (forEach_Ok_In _ _ _ m Hrows Hm) as [row Hrow].
    apply insertRow_Ok in Hrow as [_ [f Hf]]. congruence.
  - rewrite insertRow_fields in Hm'.
    destruct (escapeObject (Fields m')) as [f|e''|] eqn:Ef; simpl in Hm';
      try discriminate.
    injection Hm' as ->. rewrite <- escapeValue_VMapSI in Ef.
    destruct (escapeValue_Err _ _ _ (Nat.lt_succ_diag_r _) Ef)
      as (t & -> & Hs & Hi).
    exists before, m', after, t.
    rewrite insertSQL_rows, Hall. repeat split; auto.
    + rewrite Forall_forall. exact Hbefore.
    + now rewrite <- escapeValue_VMapSI.
Qed.

Lemma insertSQL_unsupported_witness :
  (exists before m' after t,
     bad_batch = (before ++ m' :: after)%list /\
     Forall (fun x => exists row, insertRow UTC x = Ok row) before /\
     escapeObject (Fields m') = Err (UnexpectedType t) /\
     inside t (VMapSI (Fields m')) /\
     supported t = false /\
     insertSQL "metrics" bad_batch UTC = Err (UnexpectedType t) /\
     errorType (UnexpectedType t) = typeName t /\
     text (insertSQL "metrics" bad_batch UTC) = EmptyString) /\
  insertSQL "metrics" bad_batch UTC = Err (UnexpectedType (VUint64 9)) /\
  errorType (UnexpectedType (VUint64 9)) = "uint64".
Proof.
  split; [|split; reflexivity].
  apply (insertSQL_unsupported "metrics" bad_batch UTC
           (nth 1 bad_batch cpu)
           (VMapSI [("free", VInt64 7); ("used", VUint64 9)])
           (UnexpectedType (VUint64 9))).
  - simpl. auto.
  - simpl. auto 10.
  - reflexivity.
Defined.

(** C4, as the code has it: when every column of every record encodes,
    [insertSQL] returns [INSERT INTO <table> ("hash_id", "timestamp",
    "name", "tags", "fields")], a newline, [VALUES], a newline, the tuples
    and a semicolon.  There is one tuple per record, in order; a tuple is the
    five encoded columns (identity, timestamp, name, tags, fields) separated
    by a comma and a space, within parentheses; the tuples are separated by
    a space, a comma and a newline. *)
Theorem insertSQL_statement table metrics loc :
  (forall m c, In m metrics -> In c (columns m loc) ->
               exists s, escapeValue c = Ok s) ->
  insertSQL table metrics loc
  = Ok ("INSERT INTO " ++ table ++ columnNames ++ newline
        ++ "VALUES" ++ newline
        ++ Join (map (tupleOf loc) metrics) (" ," ++ newline) ++ ";") /\
  List.length (map (tupleOf loc) metrics) = List.length metrics /\
  forall m,
    columns m loc = [ VInt64 (int64 (HashID m)); VTime (In_ (Time_ m) loc);
                      VString (Name m); VMapSS (Tags m); VMapSI (Fields m) ] /\
    tupleOf loc m
    = "(" ++ Join (map (fun c => text (escapeValue c)) (columns m loc)) ", "
          ++ ")".
Proof.
  intros H. split; [|split; [apply length_map|split; reflexivity]].
  rewrite (map_ext _ _ (tupleOf_rowOf loc)).
  apply insertSQL_all_Ok. rewrite Forall_forall. intros m Hm.
  rewrite <- escapeValue_VMapSI. apply (H m); [exact Hm|].
  simpl. auto 10.
Qed.

Lemma insertSQL_statement_witness :
  insertSQL "metrics" [cpu; bare 2 "mem"] UTC
  = Ok ("INSERT INTO metrics" ++ columnNames ++ newline
        ++ "VALUES" ++ newline
        ++ "(-4141642024207325902, '2023-01-02T03:04:05.678+0000', 'cpu', {"
        ++ dquote ++ "host" ++ dquote ++ " = 'a''s-box'}, {"
        ++ dquote ++ "usage" ++ dquote ++ " = 42.5}) ," ++ newline
        ++ "(2, '1970-01-01T00:00:00+0000', 'mem', {}, {});").
Proof.
  destruct (insertSQL_statement "metrics" [cpu; bare 2 "mem"] UTC) as [H _].
  - intros m c [<-|[<-|[]]] Hc; simpl in Hc;
      repeat (destruct Hc as [<-|Hc]; [eexists; vm_compute; reflexivity|]);
      destruct Hc.
  - rewrite H. vm_compute. reflexivity.
Defined.

Lemma insertSQL_separator_counterexample :
  insertSQL "metrics" [bare 1 "cpu"; bare 2 "mem"] UTC
  = Ok ("INSERT INTO metrics" ++ columnNames ++ newline
        ++ "VALUES" ++ newline
        ++ "(1, '1970-01-01T00:00:00+0000', 'cpu', {}, {}) ," ++ newline
        ++ "(2, '1970-01-01T00:00:00+0000', 'mem', {}, {});") /\
  text (insertSQL "metrics" [bare 1 "cpu"; bare 2 "mem"] UTC)
  <> spec_statement "metrics"
       [ "(1, '1970-01-01T00:00:00+0000', 'cpu', {}, {})";
         "(2, '1970-01-01T00:00:00+0000', 'mem', {}, {})" ].
Proof.
  split; [vm_compute; reflexivity|].
  apply String.eqb_neq. vm_compute. reflexivity.
Qed.



(** C6: a text is encoded as a single quote, the text with every single
    quote written twice and every other character as it is, and a single
    quote; stripping the outer quotes and collapsing each doubled quote
    gives the text back. *)
Theorem text_round_trip s :
  escapeValue (VString s) = Ok ("'" ++ doubled "'" s ++ "'") /\
  doubled "'" s
  = String.concat EmptyString
      (map (fun c => if Ascii.eqb c "'" then "''" else String c EmptyString)
           (list_ascii_of_string s)) /\
  unquote "'" ("'" ++ doubled "'" s ++ "'") = s /\
  unquote "'" (text (escapeValue (VString s))) = s.
Proof.
  assert (escapeValue (VString s) = Ok ("'" ++ doubled "'" s ++ "'")) as H.
  { rewrite escapeValue_VString. change squote with (String "'" EmptyString).
    now rewrite escapeString_quote. }
  rewrite H. repeat split.
  - apply doubled_concat.
  - cbn [append]. rewrite <- (escapeString_quote "'" s).
    apply unquote_escapeString.
  - cbn [append text]. rewrite <- (escapeString_quote "'" s).
    apply unquote_escapeString.
Qed.

(** C7: the encoding of a map whose values are encodable is the object
    literal of the specification: an opening brace, the [key = value] pairs
    separated by a comma and a space, a closing brace; the keys in ascending
    order, each in double quotes with its double quotes doubled; each value
    as the encoder encodes it, a nested map by the same rule. *)
Theorem escapeObject_literal m :
  encodable (VMapSI m) = true ->
  escapeObject m = Ok (render (VMapSI m)) /\
  render (VMapSI m)
  = "{" ++ Join (map (fun k => quoted "034" k ++ " = " ++ render (index m k))
                   (sortStrings (keys m))) ", " ++ "}" /\
  (forall k, In k (keys m) ->
             escapeValue (index m k) = Ok (render (index m k))) /\
  (forall k, quoted "034" k = dquote ++ doubled "034" k ++ dquote) /\
  ascending (sortStrings (keys m)) /\
  Permutation (keys m) (sortStrings (keys m)).
Proof.
  intros He. repeat split.
  - rewrite <- escapeValue_VMapSI.
    apply (escapeValue_render _ _ (Nat.lt_succ_diag_r _) He).
  - apply render_object_shape.
  - intros k Hk. destruct (get_In m k Hk) as (v & Hv & _).
    apply (escapeValue_render _ _ (Nat.lt_succ_diag_r _)).
    unfold index. rewrite Hv. eapply encodable_entries; eauto.
  - apply sortStrings_ascending.
  - apply sortStrings_perm.
Qed.

Lemma escapeObject_literal_witness :
  escapeObject fields_a = Ok (render (VMapSI fields_a)) /\
  render (VMapSI fields_a)
  = "{" ++ dquote ++ "disk" ++ dquote ++ " = {"
        ++ dquote ++ "free" ++ dquote ++ " = 'none', "
        ++ dquote ++ "used" ++ dquote ++ " = 1}, "
        ++ dquote ++ "host" ++ dquote ++ " = 'a', "
        ++ dquote ++ "usage" ++ dquote ++ " = 42}".
Proof.
  destruct (escapeObject_literal fields_a) as (H & _).
  - reflexivity.
  - split; [exact H|]. vm_compute. reflexivity.
Defined.

(** C8, as the code has it: a signed integer ([int], [int32], [int64]) is
    rendered by its decimal digits, which read back as the number, and a
    float ([float32], [float64]) by [fmt.Sprint]'s text; an unsigned integer
    ([uint], [uint32], [uint64]) handed to the encoder is not rendered: it
    falls to the default case and yields the unexpected-type error naming
    its type. *)
Theorem escapeValue_numbers (i : Z) (f : Float) :
  (escapeValue (VInt i) = Ok (Sprint_int i) /\
   escapeValue (VInt32 i) = Ok (Sprint_int i) /\
   escapeValue (VInt64 i) = Ok (Sprint_int i) /\
   parse_int (Sprint_int i) = Some i) /\
  (escapeValue (VFloat32 f) = Ok (Sprint_float f) /\
   escapeValue (VFloat64 f) = Ok (Sprint_float f)) /\
  (escapeValue (VUint i) = Err (UnexpectedType (VUint i)) /\
   escapeValue (VUint32 i) = Err (UnexpectedType (VUint32 i)) /\
   escapeValue (VUint64 i) = Err (UnexpectedType (VUint64 i)) /\
   errorType (UnexpectedType (VUint i)) = "uint" /\
   errorType (UnexpectedType (VUint32 i)) = "uint32" /\
   errorType (UnexpectedType (VUint64 i)) = "uint64").
Proof.
  repeat split; try reflexivity. apply parse_Sprint_int.
Qed.

Lemma escapeValue_uint64_counterexample :
  escapeValue (VUint64 42) = Err (UnexpectedType (VUint64 42)) /\
  errorType (UnexpectedType (VUint64 42)) = "uint64" /\
  escapeValue (VUint64 (2 ^ 63)) = Err (UnexpectedType (VUint64 (2 ^ 63))).
Proof. repeat split. Qed.


(** The timestamp of the specification's scenario, and one in a zone west
    of UTC whose milliseconds end in a zero. *)
Example timestamp_scenario :
  escapeValue (VTime (Time_ cpu)) = Ok "'2023-01-02T03:04:05.678+0000'" /\
  escapeValue
    (VTime {| unixSec := 1672628645; nsec := 670999999;
              loc := FixedZone (-27000) |})
  = Ok "'2023-01-01T19:34:05.67-0730'".
Proof. split; vm_compute; reflexivity. Qed.

(** C10: an empty map encodes to the two characters [{}], whether it is a
    [map[string]interface{}] or a [map[string]string]; a record with no tag
    and no field gets a row whose last two columns are [{}]. *)
Theorem empty_map_literal :
  escapeObject [] = Ok "{}" /\
  escapeObject (convertMap []) = Ok "{}" /\
  escapeValue (VMapSI []) = Ok "{}" /\
  escapeValue (VMapSS []) = Ok "{}" /\
  forall table loc h t name,
    insertSQL table
      [{| HashID := h; Time_ := t; Name := name; Tags := []; Fields := [] |}]
      loc
    = Ok (statement table
            ["(" ++ Sprint_int (int64 h) ++ ", "
                 ++ escapeString (Format (In_ t loc) crateLayout) squote ++ ", "
                 ++ escapeString name squote ++ ", {}, {})"]).
Proof.
  repeat split. intros table loc h t name.
  rewrite insertSQL_all_Ok.
  - reflexivity.
  - repeat constructor. exists "{}". reflexivity.
Qed.

(* ================================================================== *)
(** * Part V: further properties of the code *)

(** X1: a value whose maps have distinct keys encodes exactly when it is
    encodable (of a supported type, with encodable map values at every
    level): then the encoder returns its literal; otherwise it returns the
    unexpected-type error of an unsupported value found inside it. *)
Theorem escapeValue_iff_encodable val :
  wf_value val ->
  (encodable val = true -> escapeValue val = Ok (render val)) /\
  (encodable val = false ->
   exists t, escapeValue val = Err (UnexpectedType t) /\
             supported t = false /\ inside t val) /\
  ((exists s, escapeValue val = Ok s) <-> encodable val = true).
Proof.
  intros Hwf.
  assert (encodable val = true -> escapeValue val = Ok (render val)) as H1
    by apply (escapeValue_render _ _ (Nat.lt_succ_diag_r _)).
  assert (encodable val = false ->
          exists t, escapeValue val = Err (UnexpectedType t) /\
                    supported t = false /\ inside t val) as H2
    by apply (escapeValue_not_encodable _ _ (Nat.lt_succ_diag_r _) Hwf).
  split; [exact H1|]. split; [exact H2|]. split.
  - intros [s Hs]. destruct (encodable val); [reflexivity|].
    destruct H2 as (t & Ht & _); [reflexivity|]. congruence.
  - intros He. eauto.
Qed.

Lemma escapeValue_iff_encodable_witness :
  escapeValue (VMapSI fields_a) = Ok (render (VMapSI fields_a)) /\
  exists t,
    escapeValue (VMapSI [("ok", VInt 1); ("n", VMapSI [("flag", VBool true)])])
    = Err (UnexpectedType t) /\ supported t = false.
Proof.
  split.
  - destruct (escapeValue_iff_encodable (VMapSI fields_a)) as (H & _).
    + simpl. unfold wf_map. simpl.
      repeat split; repeat constructor; simpl; intuition discriminate.
    + apply H. reflexivity.
  - exists (VBool true). split; reflexivity.
Defined.

(** X2: for a batch whose fields have distinct keys, [insertSQL] builds a
    statement exactly when the fields of every record are encodable; the
    hash, the timestamp, the name and the tags never make it fail. *)
Theorem insertSQL_iff_encodable table metrics loc :
  wf_batch metrics ->
  (encodable_batch metrics = true ->
   insertSQL table metrics loc
   = Ok (statement table (map (rowOf loc) metrics))) /\
  (encodable_batch metrics = false ->
   exists t, insertSQL table metrics loc = Err (UnexpectedType t) /\
             supported t = false) /\
  ((exists sql, insertSQL table metrics loc = Ok sql)
   <-> encodable_batch metrics = true).
Proof.
  intros Hwf.
  pose proof (insertSQL_encodable table metrics loc) as H1.
  pose proof (insertSQL_not_encodable table metrics loc Hwf) as H2.
  split; [exact H1|]. split; [exact H2|]. split.
  - intros [sql Hs]. destruct (encodable_batch metrics); [reflexivity|].
    destruct H2 as (t & Ht & _); [reflexivity|]. congruence.
  - intros He. eauto.
Qed.

Lemma insertSQL_iff_encodable_witness :
  (exists sql, insertSQL "metrics" [cpu; bare 2 "mem"] UTC = Ok sql) /\
  encodable_batch [cpu; bare 2 "mem"] = true /\
  encodable_batch bad_batch = false.
Proof.
  destruct (insertSQL_iff_encodable "metrics" [cpu; bare 2 "mem"] UTC)
    as (H & _).
  - repeat constructor; simpl; unfold wf_map; simpl;
      repeat constructor; simpl; intuition discriminate.
  - split; [|split; reflexivity]. eexists. apply H. reflexivity.
Defined.

(** X3: when the fields of some record are not encodable, [Write] returns
    the encoder's error and hands nothing to the database, whether the
    plugin is connected or not. *)
Theorem Write_unsupported Local c sent metrics :
  wf_batch metrics -> encodable_batch metrics = false ->
  exists t,
    Write Local c sent metrics
    = (Return (Some (EncodingError (UnexpectedType t))), sent) /\
    supported t = false.
Proof.
  intros Hwf He.
  destruct (insertSQL_not_encodable (Table c) metrics Local Hwf He)
    as (t & Ht & Hs).
  exists t. unfold Write. rewrite Ht. auto.
Qed.

Lemma Write_unsupported_witness :
  Write UTC configured [] bad_batch
  = (Return (Some (EncodingError (UnexpectedType (VUint64 9)))), []).
Proof.
  destruct (Write_unsupported UTC configured [] bad_batch) as (t & Ht & _).
  - repeat constructor; simpl; unfold wf_map; simpl;
      repeat constructor; simpl; intuition discriminate.
  - reflexivity.
  - reflexivity.
Defined.

(** X4: on a connected plugin, a batch whose fields are encodable is sent
    as exactly one statement, the one [insertSQL] builds for the configured
    table in the local zone, run with the configured timeout; [Write]
    returns what the database answers.  An empty batch is not skipped: the
    statement without tuples is sent. *)
Theorem Write_sends Local c db sent metrics :
  DB c = Some db -> encodable_batch metrics = true ->
  Write Local c sent metrics
  = (Return (option_map DatabaseError
               (ExecContext db sent (Timeout c)
                  (statement (Table c) (map (rowOf Local) metrics)))),
     (sent ++ [statement (Table c) (map (rowOf Local) metrics)])%list) /\
  insertSQL (Table c) metrics Local
  = Ok (statement (Table c) (map (rowOf Local) metrics)) /\
  statement (Table c) (map (rowOf Local) [])
  = "INSERT INTO " ++ Table c ++ columnNames ++ newline
    ++ "VALUES" ++ newline ++ ";".
Proof.
  intros Hdb He.
  pose proof (insertSQL_encodable (Table c) metrics Local He) as H.
  split; [|split; [exact H|reflexivity]].
  unfold Write. rewrite H, Hdb.
  destruct (ExecContext db sent (Timeout c) _); reflexivity.
Qed.

Lemma Write_sends_witness :
  Write UTC connected [] [bare 1 "cpu"]
  = (Return None,
     ["INSERT INTO metrics" ++ columnNames ++ newline ++ "VALUES" ++ newline
      ++ "(1, '1970-01-01T00:00:00+0000', 'cpu', {}, {});"]) /\
  Write UTC connected [] []
  = (Return None,
     ["INSERT INTO metrics" ++ columnNames ++ newline ++ "VALUES" ++ newline
      ++ ";"]).
Proof.
  destruct (Write_sends UTC connected acceptAll [] [bare 1 "cpu"])
    as (H & _); [reflexivity|reflexivity|].
  split; [rewrite H|]; vm_compute; reflexivity.
Defined.

(** X5: on a plugin whose [DB] is nil (never connected, or whose [Connect]
    failed), [Write] of a batch that encodes panics on the nil handle, and
    nothing is sent. *)
Theorem Write_unconnected Local c sent metrics :
  DB c = None -> encodable_batch metrics = true ->
  Write Local c sent metrics = (Panic, sent).
Proof.
  intros Hdb He. unfold Write.
  rewrite (insertSQL_encodable (Table c) metrics Local He), Hdb.
  reflexivity.
Qed.

Lemma Write_unconnected_witness :
  Write UTC newCrateDB [] [cpu] = (Panic, []) /\
  Write UTC newCrateDB [] [] = (Panic, []).
Proof.
  split; apply Write_unconnected; reflexivity.
Defined.

(** X6: [Connect] changes nothing of the plugin but [DB], and sets [DB]
    exactly when it returns nil; it never panics.  It sends at most one
    statement, the CREATE TABLE of the configured table, and only when
    [table_create] is set and [sql.Open] succeeded; that statement counts
    as sent also when the database refuses it. *)
Theorem Connect_result sqlOpen c sent c' r sent' :
  Connect sqlOpen c sent = (c', r, sent') ->
  (URL c' = URL c /\ Timeout c' = Timeout c /\ Table c' = Table c /\
   TableCreate c' = TableCreate c) /\
  (exists err, r = Return err) /\
  (r = Return None ->
   exists db, sqlOpen "postgres" (URL c) = inl db /\ DB c' = Some db) /\
  (forall e, r = Return (Some e) -> c' = c) /\
  (sent' = sent \/ sent' = (sent ++ [createSQL (Table c)])%list) /\
  (TableCreate c = false -> sent' = sent) /\
  (forall e, sqlOpen "postgres" (URL c) = inr e ->
             sent' = sent /\ r = Return (Some (DatabaseError e))) /\
  (forall db, sqlOpen "postgres" (URL c) = inl db -> TableCreate c = true ->
              sent' = (sent ++ [createSQL (Table c)])%list /\
              r = Return (option_map DatabaseError
                            (ExecContext db sent (Timeout c)
                               (createSQL (Table c))))).
Proof.
  unfold Connect. intros H.
  destruct (sqlOpen "postgres" (URL c)) as [db|e] eqn:Eo;
    [destruct (TableCreate c) eqn:Et;
       [destruct (ExecContext db sent (Timeout c) (createSQL (Table c)))
          as [err|] eqn:Ee|]|];
    injection H as <- <- <-; cbn [URL Timeout Table TableCreate DB];
    repeat match goal with
           | |- _ /\ _ => split
           | |- forall _, _ => intro
           | |- _ -> _ => intro
           end;
    try discriminate; try reflexivity; try congruence;
    try (now eauto);
    try (match goal with H : inl _ = inl _ |- _ => injection H as <- end;
         try rewrite Ee; reflexivity);
    try (match goal with H : inr _ = inr _ |- _ => injection H as <- end;
         reflexivity);
    auto.
Qed.

Lemma Connect_result_witness :
  Connect (openWith acceptAll) configured []
  = (connected, Return None, [createSQL "metrics"]) /\
  Connect (openWith refuseAll) configured []
  = (configured, Return (Some (DatabaseError (DBError "refused"))),
     [createSQL "metrics"]) /\
  Connect openFails configured []
  = (configured, Return (Some (DatabaseError (DBError "unknown driver"))),
     []) /\
  DB connected = Some acceptAll.
Proof.
  assert (Connect (openWith acceptAll) configured []
          = (connected, Return None, [createSQL "metrics"])) as H
    by reflexivity.
  destruct (Connect_result _ _ _ _ _ _ H) as (_ & _ & Hdb & _).
  destruct (Hdb eq_refl) as (db & Hopen & Hc).
  injection Hopen as <-.
  repeat split; first [exact Hc|reflexivity].
Defined.

(** X7: after a [Connect] that returned nil, [Write] does not panic: a
    batch whose fields are encodable is sent to the handle [sql.Open] gave,
    for the configured table and with the configured timeout, after the
    CREATE TABLE statement if there was one. *)
Theorem Connect_then_Write sqlOpen Local c sent c' sent' metrics :
  Connect sqlOpen c sent = (c', Return None, sent') ->
  encodable_batch metrics = true ->
  exists db,
    sqlOpen "postgres" (URL c) = inl db /\
    Write Local c' sent' metrics
    = (Return (option_map DatabaseError
                 (ExecContext db sent' (Timeout c)
                    (statement (Table c) (map (rowOf Local) metrics)))),
       (sent' ++ [statement (Table c) (map (rowOf Local) metrics)])%list) /\
    (sent' = sent \/ sent' = (sent ++ [createSQL (Table c)])%list).
Proof.
  intros Hc He.
  assert (exists db, sqlOpen "postgres" (URL c) = inl db /\ DB c' = Some db
                     /\ Table c' = Table c /\ Timeout c' = Timeout c
                     /\ (sent' = sent \/
                         sent' = (sent ++ [createSQL (Table c)])%list))
    as (db & Ho & Hdb & Ht & Hti & Hs).
  { unfold Connect in Hc.
    destruct (sqlOpen "postgres" (URL c)) as [db|e]; [|discriminate].
    exists db. destruct (TableCreate c).
    - destruct (ExecContext db sent (Timeout c) (createSQL (Table c)));
        [discriminate|].
      injection Hc as <- <-. simpl. auto 10.
    - injection Hc as <- <-. simpl. auto 10. }
  exists db. split; [exact Ho|]. split; [|exact Hs].
  unfold Write.
  rewrite (insertSQL_encodable (Table c') metrics Local He), Hdb, Ht, Hti.
  destruct (ExecContext db sent' (Timeout c) _); reflexivity.
Qed.

Lemma Connect_then_Write_witness :
  exists db,
    openWith acceptAll "postgres" (URL configured) = inl db /\
    Write UTC connected [createSQL "metrics"] [bare 1 "cpu"]
    = (Return (option_map DatabaseError
                 (ExecContext db [createSQL "metrics"] (Timeout configured)
                    (statement (Table configured)
                       (map (rowOf UTC) [bare 1 "cpu"])))),
       ([createSQL "metrics"]
        ++ [statement (Table configured)
              (map (rowOf UTC) [bare 1 "cpu"])])%list) /\
    ([createSQL "metrics"] = []
     \/ [createSQL "metrics"]
        = ([] ++ [createSQL (Table configured)])%list).
Proof.
  apply (Connect_then_Write (openWith acceptAll) UTC configured []
           connected [createSQL "metrics"] [bare 1 "cpu"]);
    reflexivity.
Defined.

(** X8: the literal of the hash of a record is always within the signed
    64-bit range, whatever the hash; it determines the hash (the hash is
    the literal modulo 2^64), so two records with different hashes get
    different literals; a hash below 2^63 is written as it is. *)
Theorem hash_literal_faithful m m' l :
  0 <= HashID m < 2 ^ 64 -> 0 <= HashID m' < 2 ^ 64 ->
  nth 0 (columns m l) VNil = VInt64 (int64 (HashID m)) /\
  escapeValue (VInt64 (int64 (HashID m)))
  = Ok (Sprint_int (int64 (HashID m))) /\
  parse_int (Sprint_int (int64 (HashID m))) = Some (int64 (HashID m)) /\
  - 2 ^ 63 <= int64 (HashID m) < 2 ^ 63 /\
  int64 (HashID m) mod 2 ^ 64 = HashID m /\
  (HashID m < 2 ^ 63 -> Sprint_int (int64 (HashID m)) = Sprint_int (HashID m)) /\
  (Sprint_int (int64 (HashID m)) = Sprint_int (int64 (HashID m')) ->
   HashID m = HashID m').
Proof.
  intros H H'.
  assert (forall u, 0 <= u < 2 ^ 64 ->
            - 2 ^ 63 <= int64 u < 2 ^ 63 /\ int64 u mod 2 ^ 64 = u) as Hr.
  { intros u Hu. unfold int64 in *.
    change (2 ^ 63) with 9223372036854775808 in *.
    change (2 ^ 64) with 18446744073709551616 in *.
    Z.div_mod_to_equations. lia. }
  destruct (Hr _ H) as [Hrange Hmod]. destruct (Hr _ H') as [_ Hmod'].
  repeat split; try reflexivity; try tauto.
  - apply parse_Sprint_int.
  - intros Hlow. rewrite int64_low by lia. reflexivity.
  - intros E. apply Sprint_int_inj in E. congruence.
Qed.

Lemma hash_literal_faithful_witness :
  Sprint_int (int64 (HashID cpu)) = "-4141642024207325902" /\
  (-4141642024207325902) mod 2 ^ 64 = HashID cpu /\
  Sprint_int (int64 (HashID (bare 7 "mem"))) = "7".
Proof.
  destruct (hash_literal_faithful cpu (bare 7 "mem") UTC)
    as (_ & _ & _ & _ & Hmod & _); [simpl; lia|simpl; lia|].
  split; [reflexivity|]. split; [exact Hmod|reflexivity].
Defined.

(** X9: with a quote of one character (the single quote of texts, the
    double quote of keys), [escapeString] can be read back and so never
    gives two strings the same literal; the literal holds the quote an even
    number of times, twice per quote of the string and two around it, and a
    string without the quote is only wrapped. *)
Theorem escapeString_one_quote q s s' :
  unquote q (escapeString s (String q EmptyString)) = s /\
  (escapeString s (String q EmptyString)
   = escapeString s' (String q EmptyString) -> s = s') /\
  count q (escapeString s (String q EmptyString)) = (2 * count q s + 2)%nat /\
  String.length (escapeString s (String q EmptyString))
  = (String.length s + count q s + 2)%nat /\
  (count q s = 0%nat ->
   escapeString s (String q EmptyString)
   = String q EmptyString ++ s ++ String q EmptyString).
Proof.
  repeat split.
  - apply unquote_escapeString.
  - intros E. rewrite <- (unquote_escapeString q s), E.
    apply unquote_escapeString.
  - rewrite escapeString_quote. cbn [count].
    rewrite Ascii.eqb_refl, count_app, count_doubled. cbn [count].
    rewrite Ascii.eqb_refl. lia.
  - rewrite escapeString_quote. cbn [String.length].
    rewrite length_append, length_doubled. simpl. lia.
  - intros H. rewrite escapeString_quote, doubled_absent by exact H.
    reflexivity.
Qed.

(** X10: [convertMap] copies every entry: the copy has the keys of the
    map, in the same number, indexing it yields the text of the key as a
    string value (nil for a missing key), and distinct keys stay distinct.
    So the copy is always encodable: encoding tags never fails. *)
Theorem convertMap_copies t :
  keys (convertMap t) = keys t /\
  List.length (convertMap t) = List.length t /\
  (forall k, get (convertMap t) k = option_map VString (get t k)) /\
  (forall k, ~ In k (keys t) -> index (convertMap t) k = VNil) /\
  (wf_map t -> wf_map (convertMap t)) /\
  encodable (VMapSI (convertMap t)) = true /\
  escapeObject (convertMap t) = Ok (tagsText t) /\
  escapeValue (VMapSS t) = escapeObject (convertMap t).
Proof.
  repeat split.
  - apply keys_convertMap.
  - apply length_map.
  - intros k. apply get_convertMap.
  - intros k Hk. unfold index. rewrite get_convertMap.
    destruct (get t k) as [s|] eqn:E; [|reflexivity].
    exfalso. apply Hk. clear Hk.
    induction t as [|[k' s'] t IH]; simpl in *; [discriminate|].
    destruct (String.eqb_spec k k'); auto.
  - unfold wf_map. now rewrite keys_convertMap.
  - induction t as [|[k s] t IH]; simpl; auto.
  - rewrite <- escapeValue_VMapSS. apply escapeValue_tags.
  - apply escapeValue_VMapSS.
Qed.

(** X11: batches compose.  The statement of two batches put together has
    the rows of the first followed by the rows of the second; it fails with
    the error of the first batch when that one fails, and with the error of
    the second when only that one fails. *)
Theorem insertSQL_app table a b loc :
  (forall e, insertSQL table a loc = Err e ->
             insertSQL table (a ++ b)%list loc = Err e) /\
  (forall sa e, insertSQL table a loc = Ok sa ->
                insertSQL table b loc = Err e ->
                insertSQL table (a ++ b)%list loc = Err e) /\
  (forall sa sb, insertSQL table a loc = Ok sa ->
                 insertSQL table b loc = Ok sb ->
                 sa = statement table (map (rowOf loc) a) /\
                 sb = statement table (map (rowOf loc) b) /\
                 insertSQL table (a ++ b)%list loc
                 = Ok (statement table
                         (map (rowOf loc) a ++ map (rowOf loc) b)%list)).
Proof.
  rewrite !insertSQL_rows, forEach_app.
  repeat split.
  - intros e H. destruct (forEach (insertRow loc) a); simpl in *; congruence.
  - intros sa e Ha Hb.
    destruct (forEach (insertRow loc) a); simpl in *; try discriminate.
    destruct (forEach (insertRow loc) b); simpl in *; congruence.
  - rewrite <- insertSQL_rows in H. now apply insertSQL_Ok in H.
  - rewrite <- insertSQL_rows in H0. now apply insertSQL_Ok in H0.
  - rewrite <- insertSQL_rows in H, H0.
    pose proof (insertSQL_Ok _ _ _ _ H) as [_ Ha].
    pose proof (insertSQL_Ok _ _ _ _ H0) as [_ Hb].
    rewrite <- forEach_app, <- insertSQL_rows, <- map_app.
    apply insertSQL_all_Ok. apply Forall_app. auto.
Qed.

(** X12: the timestamp keeps milliseconds only, cut not rounded: two
    instants of the same second, shown in the same location, whose
    nanoseconds agree up to the millisecond have the same literal. *)
Theorem timestamp_millisecond t t' :
  unixSec t = unixSec t' -> loc t = loc t' ->
  nsec t / 1000000 = nsec t' / 1000000 ->
  Format t crateLayout = Format t' crateLayout /\
  escapeValue (VTime t) = escapeValue (VTime t').
Proof.
  intros Hs Hl Hn.
  assert (Format t crateLayout = Format t' crateLayout) as H.
  { assert (offset t = offset t') as Ho by (unfold offset; congruence).
    assert (wall t = wall t') as Hw by (unfold wall; congruence).
    rewrite !Format_shape, Hn, (zone_offset t t' Ho).
    unfold Year, Month, Day, Hour, Minute, Second. now rewrite Hw. }
  split; [exact H|]. now rewrite !escapeValue_time, H.
Qed.

Lemma timestamp_millisecond_witness :
  escapeValue (VTime {| unixSec := 1672628645; nsec := 678999999; loc := UTC |})
  = escapeValue (VTime (Time_ cpu)) /\
  escapeValue (VTime (Time_ cpu)) = Ok "'2023-01-02T03:04:05.678+0000'".
Proof.
  split; [|vm_compute; reflexivity].
  apply (timestamp_millisecond
           {| unixSec := 1672628645; nsec := 678999999; loc := UTC |}
           (Time_ cpu)); reflexivity.
Defined.

(** X13: the timestamp can be read back.  The six fields of the text give
    the wall clock, hence the instant once the offset is known; so two
    instants of years 0 to 9999 at the same offset from UTC that get the
    same timestamp text are the same second and the same millisecond. *)
Theorem timestamp_determines_instant t t' :
  0 <= Year t <= 9999 -> 0 <= Year t' <= 9999 ->
  offset t = offset t' ->
  0 <= nsec t < 1000000000 -> 0 <= nsec t' < 1000000000 ->
  Format t crateLayout = Format t' crateLayout ->
  unixSec t = unixSec t' /\
  nsec t / 1000000 = nsec t' / 1000000 /\
  unixSec t
  = daysFromCivil (Year t) (Month t) (Day t) * 86400
    + Hour t * 3600 + Minute t * 60 + Second t - offset t.
Proof.
  intros Hy Hy' Ho Hn Hn' H.
  destruct (Format_fields t t' Hy Hy' Ho H)
    as (EY & EM & ED & Eh & Em & Es & Ef).
  pose proof (wall_fields t) as Hw. pose proof (wall_fields t') as Hw'.
  unfold wall in Hw, Hw'.
  split; [|split].
  - rewrite EY, EM, ED, Eh, Em, Es, <- Hw' in Hw. lia.
  - apply fraction_inj; [| |exact Ef]; Z.div_mod_to_equations; lia.
  - lia.
Qed.

Lemma timestamp_determines_instant_witness :
  unixSec (Time_ cpu)
  = daysFromCivil 2023 1 2 * 86400 + 3 * 3600 + 4 * 60 + 5 - 0 /\
  Format (Time_ cpu) crateLayout = "2023-01-02T03:04:05.678+0000".
Proof.
  destruct (timestamp_determines_instant (Time_ cpu) (Time_ cpu))
    as (_ & _ & H).
  - vm_compute. split; discriminate.
  - vm_compute. split; discriminate.
  - reflexivity.
  - vm_compute. split; [discriminate|reflexivity].
  - vm_compute. split; [discriminate|reflexivity].
  - reflexivity.
  - split; [exact H|vm_compute; reflexivity].
Defined.

(** X14: a literal of [escapeString] is read back where it stands in a
    statement: a lexer that takes a doubled quote for one quote and a single
    quote for the end reads, from the literal followed by any text that does
    not begin with the quote, exactly the string and leaves exactly that
    text.  No content of a string ends its literal early. *)
Theorem escapeString_scanned q s rest :
  notAt q rest = true ->
  scanLiteral q (escapeString s (String q EmptyString) ++ rest)
  = Some (s, rest).
Proof.
  intros Hr. rewrite escapeString_quote.
  cbn [append scanLiteral]. rewrite Ascii.eqb_refl, append_assoc.
  cbn [append]. now apply scanBody_doubled.
Qed.

Lemma escapeString_scanned_witness :
  scanLiteral "'" (escapeString "a'); DROP TABLE metrics; --" squote
                   ++ ", {}, {})")
  = Some ("a'); DROP TABLE metrics; --", ", {}, {})").
Proof.
  apply (escapeString_scanned "'" "a'); DROP TABLE metrics; --" ", {}, {})").
  reflexivity.
Defined.

(** X15: the two revisions in the source agree where the change does not
    bear: on a batch whose hashes are below 2^63, whose times are already
    in the location given, and whose fields hold no unsigned integer, the
    earlier [insertSQL] returns what the current one returns.  For a hash
    from 2^63 on, the earlier revision writes the unsigned decimal form,
    which is not the literal of the current one. *)
Theorem revisions_agree table metrics l :
  Forall (fun m => 0 <= HashID m < 2 ^ 63 /\ loc (Time_ m) = l /\
                   unsignedFree (VMapSI (Fields m)) = true) metrics ->
  Earlier.insertSQL table metrics = insertSQL table metrics l /\
  forall m, 2 ^ 63 <= HashID m < 2 ^ 64 ->
    Earlier.escapeValue (nth 0 (Earlier.columns m) VNil)
    = Ok (Sprint_int (HashID m)) /\
    escapeValue (nth 0 (columns m l) VNil)
    = Ok (Sprint_int (HashID m - 2 ^ 64)) /\
    Sprint_int (HashID m) <> Sprint_int (HashID m - 2 ^ 64).
Proof.
  intros H. split.
  - unfold Earlier.insertSQL, insertSQL. f_equal.
    apply forEach_ext. intros m Hm.
    rewrite Forall_forall in H. destruct (H m Hm) as (Hh & Hl & Hf).
    unfold Earlier.insertRow, insertRow, Earlier.columns, columns.
    cbn [forEach]. rewrite int64_low, In_same_location by assumption.
    rewrite !(Earlier_escapeValue (VTime _)), !(Earlier_escapeValue (VString _)),
      !(Earlier_escapeValue (VMapSS _)), !(Earlier_escapeValue (VMapSI _))
      by (reflexivity || exact Hf).
    reflexivity.
  - intros m Hm. cbn [nth Earlier.columns columns].
    rewrite int64_high by exact Hm. repeat split.
    intros E. apply Sprint_int_inj in E. lia.
Qed.

Lemma revisions_agree_witness :
  Earlier.insertSQL "metrics" [bare 1 "cpu"; bare 2 "mem"]
  = insertSQL "metrics" [bare 1 "cpu"; bare 2 "mem"] UTC /\
  Earlier.escapeValue (nth 0 (Earlier.columns cpu) VNil)
  = Ok "14305102049502225714".
Proof.
  destruct (revisions_agree "metrics" [bare 1 "cpu"; bare 2 "mem"] UTC)
    as [H _].
  - repeat constructor; simpl; lia.
  - split; [exact H|reflexivity].
Defined.
